(** * MapnikSource (mapproxy/source/mapnik.py): handle cache and render path

    A shallow embedding of [MapnikSource]: the module-level tables
    [_map_objs], [_map_loading] and [_map_objs_lock], the methods
    [__init__], [get_map], [render], [map_obj], [render_mapfile] and
    [_render_mapfile], and the properties of the handle cache, the layer
    filter, the request log and the error translation.

    Python's dicts are [gmap]s, the objects that are shared by reference
    ([threading.Event], [mapnik.Map]) live in a store and are named by
    their index, and a method is a function from the world before the call
    to an outcome and the world after it. *)

From stdpp Require Import gmap strings list fin_maps.
From Stdlib Require Import ZArith Ascii String.

Local Open Scope Z_scope.
Local Open Scope string_scope.
Local Open Scope list_scope.

(** ** Values *)

(** [multiprocessing.current_process()._identity] is a tuple of numbers. *)
Abbreviation ProcessIdentity := (list nat) (only parsing).

(** The value the attribute [get_ident] of [threading.current_thread()]
    evaluates to, where the thread object has such an attribute.  The code
    never calls it; it only compares it, as one component of the cache
    key. *)
Abbreviation ThreadIdent := nat (only parsing).

(** Where a call runs: what line 102 reads when the attribute lookup
    succeeds, and what line 103 reads. *)
Record ExecContext := {
  process_id : ProcessIdentity;
  thread_id : ThreadIdent
}.

(** [cachekey = (process_id, thread_id, mapfile)] *)
Abbreviation CacheKey := (list nat * nat * string)%type (only parsing).

Abbreviation BBox := (Z * Z * Z * Z)%type (only parsing).
Abbreviation Size := (Z * Z)%type (only parsing).

Record SRS := { srs_code : string }.

Record Query := {
  q_bbox : BBox;
  q_size : Size;
  q_srs : SRS;
  q_format : string
}.

(** A layer of a [mapnik.Map]; the code reads [layer.name] only. *)
Record Layer := {
  layer_name : string;
  layer_source : nat
}.

(** A [mapnik.Map] object: what [resize], the [srs] attribute,
    [zoom_to_box] and [layers] read and write. *)
Record MapObj := {
  m_width : Z;
  m_height : Z;
  m_srs : string;
  m_envelope : option BBox;
  m_layers : list Layer
}.

Abbreviation HandleId := nat (only parsing).
Abbreviation EventId := nat (only parsing).

(** ** Exceptions *)

Inductive ExcClass :=
| ClsRuntimeError
| ClsNameError
| ClsAttributeError
| ClsKeyError
| ClsIndexError
| ClsBlankImage
| ClsSourceError
| ClsOther (name : string).

Record PyExc := {
  exc_class : ExcClass;
  exc_args : list string
}.

(** [except RuntimeError] on line 82. *)
Definition is_RuntimeError (e : PyExc) : bool :=
  match exc_class e with
  | ClsRuntimeError => true
  | _ => false
  end.

Definition BlankImage : PyExc := {| exc_class := ClsBlankImage; exc_args := [] |}.
Definition SourceError (msg : string) : PyExc :=
  {| exc_class := ClsSourceError; exc_args := [msg] |}.
Definition NameError (name : string) : PyExc :=
  {| exc_class := ClsNameError; exc_args := [name] |}.
Definition AttributeError (name : string) : PyExc :=
  {| exc_class := ClsAttributeError; exc_args := [name] |}.
Definition KeyError : PyExc := {| exc_class := ClsKeyError; exc_args := [] |}.
Definition IndexError : PyExc := {| exc_class := ClsIndexError; exc_args := [] |}.

(** ** The engine binding

    Every call into [mapnik] is recorded, in order, with its arguments. *)

Inductive EngineCall :=
| CMap (w h : Z)                                   (* mapnik.Map(0, 0) *)
| CLoadMap (m : HandleId) (mapfile : string)        (* mapnik.load_map(m, str(mapfile)) *)
| CClearCache                                       (* mapnik.clear_cache() *)
| CResize (m : HandleId) (w h : Z)                  (* m.resize(w, h) *)
| CSetSrs (m : HandleId) (srs : string)             (* m.srs = ... *)
| CBox2d (bbox : BBox)                              (* mapnik.Box2d( *bbox) *)
| CZoomToBox (m : HandleId) (bbox : BBox)           (* m.zoom_to_box(envelope) *)
| CImage (w h : Z)                                  (* mapnik.Image(w, h) *)
| CRender (m : HandleId) (layers : list Layer) (scale : option Z)
                                                    (* mapnik.render(m, img[, scale]) *)
| CToString (format : string).                      (* img.tostring(str(format)) *)

(** One record of [log_request]. *)
Record LogRecord := {
  lr_mapfile : string;
  lr_bbox : BBox;
  lr_srs_code : string;
  lr_size : Size;
  lr_status : string;
  lr_bytes : option nat;
  lr_method : string;
  lr_duration : Z
}.

(** What the module does not define itself and takes from outside. *)
Record Env := {
  (** whether the object [threading.current_thread()] returns has an
      attribute [get_ident], which line 102 reads.  The [Thread] class of
      CPython's [threading] has [ident] and no [get_ident] ([get_ident] is
      a function of the module), so there the lookup fails. *)
  thread_has_get_ident : bool;
  (** whether the global name [proc], which lines 112 and 121 read and the
      module never binds, resolves when the line runs *)
  proc_bound : bool;
  (** whether an engine call raises, given the calls made before it *)
  engine_raises : list EngineCall → EngineCall → option PyExc;
  (** what [load_map] reads from a map file *)
  mapfile_layers : string → list Layer;
  mapfile_srs : string → string;
  (** the bytes [img.tostring] returns, given the calls made before it *)
  tostring_data : list EngineCall → string → list Byte.byte;
  (** the n-th reading of [time.time()] *)
  time_time : nat → Z;
  (** [tile_grid(3857).get_affected_bbox_and_level(...)], second
      component, or the exception the call raises *)
  webmercator_level : Query → PyExc + Z;
  (** [mapfile % {'webmercator_level': level}]: the formatted text, or
      the exception the operator raises (a [ValueError] on an incomplete
      placeholder, a [KeyError] on another name, ...) *)
  format_mapfile : string → Z → PyExc + string;
  (** [s.lower()] of Python's [str] *)
  str_lower : string → string;
  (** [str(args)] of a tuple of two or more arguments, which is what
      [str(ex)] gives for an exception with that many *)
  tuple_str : list string → string
}.

(** ** The world: module globals, object store, and what was observed *)

Record World := {
  map_objs : gmap (list nat * nat * string) nat;     (* _map_objs *)
  map_loading : gmap (list nat * nat * string) nat;  (* _map_loading *)
  objs_lock_held : bool;                             (* _map_objs_lock *)
  events : list bool;              (* the threading.Event objects: their flag *)
  handles : list MapObj;           (* the mapnik.Map objects *)
  engine_calls : list EngineCall;  (* calls into mapnik, oldest first *)
  request_log : list LogRecord;    (* log_request records, oldest first *)
  error_log : list string;         (* log.error messages, oldest first *)
  render_lock_log : list bool;     (* self.lock(): true = entered, false = left *)
  clock_reads : nat                (* how often time.time() was read *)
}.

Definition empty_world : World :=
  {| map_objs := ∅; map_loading := ∅; objs_lock_held := false;
     events := []; handles := []; engine_calls := []; request_log := [];
     error_log := []; render_lock_log := []; clock_reads := 0 |}.

(** ** Outcomes and the monad of a call *)

Inductive Outcome (A : Type) :=
| Returned (a : A)
| Raised (e : PyExc)
| Blocked.  (* the call waits and nothing that runs can wake it *)
Arguments Returned {A} a.
Arguments Raised {A} e.
Arguments Blocked {A}.

Definition M (A : Type) : Type := World → Outcome A * World.

Definition ret {A} (a : A) : M A := λ w, (Returned a, w).
Definition raise {A} (e : PyExc) : M A := λ w, (Raised e, w).
Definition block {A} : M A := λ w, (Blocked, w).

Definition bind {A B} (c : M A) (k : A → M B) : M B :=
  λ w, match c w with
       | (Returned a, w') => k a w'
       | (Raised e, w') => (Raised e, w')
       | (Blocked, w') => (Blocked, w')
       end.

#[global] Instance M_ret : MRet M := @ret.
#[global] Instance M_bind : MBind M := λ A B k c, bind c k.

(** [try: body finally: fin]; a call that blocks in [body] never reaches
    [fin]. *)
Definition try_finally {A} (body : M A) (fin : M unit) : M A :=
  λ w, match body w with
       | (Returned a, w') =>
           match fin w' with
           | (Returned _, w'') => (Returned a, w'')
           | (Raised e, w'') => (Raised e, w'')
           | (Blocked, w'') => (Blocked, w'')
           end
       | (Raised e, w') =>
           match fin w' with
           | (Returned _, w'') => (Raised e, w'')
           | (Raised e', w'') => (Raised e', w'')
           | (Blocked, w'') => (Blocked, w'')
           end
       | (Blocked, w') => (Blocked, w')
       end.

(** [try: body except <class>: handler] *)
Definition try_except {A} (body : M A) (catches : PyExc → bool)
    (handler : PyExc → M A) : M A :=
  λ w, match body w with
       | (Raised e, w') => if catches e then handler e w' else (Raised e, w')
       | r => r
       end.

(** [try: body finally: fin], where [fin] reads the local [data]: [None]
    before the block, and what the block's last assignment (line 161)
    bound once the block has run to its end. *)
Definition try_finally_data {A} (body : M A) (fin : option A → M unit) : M A :=
  λ w, match body w with
       | (Returned a, w') =>
           match fin (Some a) w' with
           | (Returned _, w'') => (Returned a, w'')
           | (Raised e, w'') => (Raised e, w'')
           | (Blocked, w'') => (Blocked, w'')
           end
       | (Raised e, w') =>
           match fin None w' with
           | (Returned _, w'') => (Raised e, w'')
           | (Raised e', w'') => (Raised e', w'')
           | (Blocked, w'') => (Blocked, w'')
           end
       | (Blocked, w') => (Blocked, w')
       end.

(** ** Field updates of the world *)

Definition set_map_objs (f : gmap (list nat * nat * string) nat → gmap (list nat * nat * string) nat)
    (w : World) : World :=
  {| map_objs := f (map_objs w); map_loading := map_loading w;
     objs_lock_held := objs_lock_held w; events := events w;
     handles := handles w; engine_calls := engine_calls w;
     request_log := request_log w; error_log := error_log w;
     render_lock_log := render_lock_log w; clock_reads := clock_reads w |}.

Definition set_map_loading (f : gmap (list nat * nat * string) nat → gmap (list nat * nat * string) nat)
    (w : World) : World :=
  {| map_objs := map_objs w; map_loading := f (map_loading w);
     objs_lock_held := objs_lock_held w; events := events w;
     handles := handles w; engine_calls := engine_calls w;
     request_log := request_log w; error_log := error_log w;
     render_lock_log := render_lock_log w; clock_reads := clock_reads w |}.

Definition set_objs_lock_held (b : bool) (w : World) : World :=
  {| map_objs := map_objs w; map_loading := map_loading w;
     objs_lock_held := b; events := events w;
     handles := handles w; engine_calls := engine_calls w;
     request_log := request_log w; error_log := error_log w;
     render_lock_log := render_lock_log w; clock_reads := clock_reads w |}.

Definition set_events (f : list bool → list bool) (w : World) : World :=
  {| map_objs := map_objs w; map_loading := map_loading w;
     objs_lock_held := objs_lock_held w; events := f (events w);
     handles := handles w; engine_calls := engine_calls w;
     request_log := request_log w; error_log := error_log w;
     render_lock_log := render_lock_log w; clock_reads := clock_reads w |}.

Definition set_handles (f : list MapObj → list MapObj) (w : World) : World :=
  {| map_objs := map_objs w; map_loading := map_loading w;
     objs_lock_held := objs_lock_held w; events := events w;
     handles := f (handles w); engine_calls := engine_calls w;
     request_log := request_log w; error_log := error_log w;
     render_lock_log := render_lock_log w; clock_reads := clock_reads w |}.

Definition set_engine_calls (f : list EngineCall → list EngineCall) (w : World) : World :=
  {| map_objs := map_objs w; map_loading := map_loading w;
     objs_lock_held := objs_lock_held w; events := events w;
     handles := handles w; engine_calls := f (engine_calls w);
     request_log := request_log w; error_log := error_log w;
     render_lock_log := render_lock_log w; clock_reads := clock_reads w |}.

Definition set_request_log (f : list LogRecord → list LogRecord) (w : World) : World :=
  {| map_objs := map_objs w; map_loading := map_loading w;
     objs_lock_held := objs_lock_held w; events := events w;
     handles := handles w; engine_calls := engine_calls w;
     request_log := f (request_log w); error_log := error_log w;
     render_lock_log := render_lock_log w; clock_reads := clock_reads w |}.

Definition set_error_log (f : list string → list string) (w : World) : World :=
  {| map_objs := map_objs w; map_loading := map_loading w;
     objs_lock_held := objs_lock_held w; events := events w;
     handles := handles w; engine_calls := engine_calls w;
     request_log := request_log w; error_log := f (error_log w);
     render_lock_log := render_lock_log w; clock_reads := clock_reads w |}.

Definition set_render_lock_log (f : list bool → list bool) (w : World) : World :=
  {| map_objs := map_objs w; map_loading := map_loading w;
     objs_lock_held := objs_lock_held w; events := events w;
     handles := handles w; engine_calls := engine_calls w;
     request_log := request_log w; error_log := error_log w;
     render_lock_log := f (render_lock_log w); clock_reads := clock_reads w |}.

Definition set_clock_reads (f : nat → nat) (w : World) : World :=
  {| map_objs := map_objs w; map_loading := map_loading w;
     objs_lock_held := objs_lock_held w; events := events w;
     handles := handles w; engine_calls := engine_calls w;
     request_log := request_log w; error_log := error_log w;
     render_lock_log := render_lock_log w; clock_reads := f (clock_reads w) |}.

(** ** Strings *)

(** [pat in s] *)
Definition contains_substring (pat s : string) : bool :=
  match String.index 0 pat s with
  | Some _ => true
  | None => false
  end.

Definition lower_ascii (c : ascii) : ascii :=
  let n := nat_of_ascii c in
  if (65 <=? n)%nat && (n <=? 90)%nat then ascii_of_nat (n + 32) else c.

(** What [s.lower()] gives for a string of ASCII characters. *)
Fixpoint lower (s : string) : string :=
  match s with
  | EmptyString => EmptyString
  | String c s' => String (lower_ascii c) (lower s')
  end.

(** ** The statements of the module, one primitive each *)

Section Program.
Context (env : Env).

(** [time.time()] *)
Definition time_now : M Z :=
  λ w, (Returned (time_time env (clock_reads w)), set_clock_reads S w).

(** A call into the engine: recorded, then it returns or raises. *)
Definition engine (c : EngineCall) : M unit :=
  λ w, let w' := set_engine_calls (λ l, l ++ [c]) w in
       match engine_raises env (engine_calls w) c with
       | Some e => (Raised e, w')
       | None => (Returned (), w')
       end.

(** Line 102: [threading.current_thread().get_ident].  The attribute is
    read, not called; where the thread object has none of that name the
    read raises [AttributeError]. *)
Definition read_get_ident (ctx : ExecContext) : M ThreadIdent :=
  if thread_has_get_ident env then ret (thread_id ctx)
  else raise (AttributeError "get_ident").

(** Reading the global [proc] (an argument of the [print] calls on lines
    112 and 121). *)
Definition read_proc : M unit :=
  if proc_bound env then ret () else raise (NameError "proc").

(** [cachekey not in _map_loading], negated *)
Definition loading_contains (k : CacheKey) : M bool :=
  λ w, (Returned (bool_decide (is_Some (map_loading w !! k))), w).

(** [threading.Event()] *)
Definition new_event : M EventId :=
  λ w, (Returned (List.length (events w)), set_events (λ l, l ++ [false]) w).

(** [_map_loading[cachekey] = ev] *)
Definition loading_store (k : CacheKey) (ev : EventId) : M unit :=
  λ w, (Returned (), set_map_loading (<[k := ev]>) w).

(** [_map_loading[cachekey]] *)
Definition loading_get (k : CacheKey) : M EventId :=
  λ w, match map_loading w !! k with
       | Some ev => (Returned ev, w)
       | None => (Raised KeyError, w)
       end.

(** [ev.set()] *)
Definition event_set (ev : EventId) : M unit :=
  λ w, (Returned (), set_events (<[ev := true]>) w).

(** [ev.wait()]: returns once the flag is set. *)
Definition event_wait (ev : EventId) : M unit :=
  λ w, match events w !! ev with
       | Some true => (Returned (), w)
       | _ => (Blocked, w)
       end.

(** Entering and leaving [with _map_objs_lock:] *)
Definition lock_acquire : M unit :=
  λ w, if objs_lock_held w then (Blocked, w)
       else (Returned (), set_objs_lock_held true w).

Definition lock_release : M unit :=
  λ w, (Returned (), set_objs_lock_held false w).

Definition with_objs_lock {A} (body : M A) : M A :=
  lock_acquire ;; try_finally body lock_release.

(** [_map_objs[cachekey] = m] *)
Definition objs_store (k : CacheKey) (m : HandleId) : M unit :=
  λ w, (Returned (), set_map_objs (<[k := m]>) w).

(** [_map_objs[cachekey]] *)
Definition objs_get (k : CacheKey) : M HandleId :=
  λ w, match map_objs w !! k with
       | Some m => (Returned m, w)
       | None => (Raised KeyError, w)
       end.

Definition blank_map (w h : Z) : MapObj :=
  {| m_width := w; m_height := h; m_srs := ""; m_envelope := None;
     m_layers := [] |}.

Definition alloc_map (o : MapObj) : M HandleId :=
  λ s, (Returned (List.length (handles s)), set_handles (λ l, l ++ [o]) s).

(** [mapnik.Map(w, h)]: a new object in the store. *)
Definition new_map (w h : Z) : M HandleId :=
  engine (CMap w h) ;; alloc_map (blank_map w h).

(** A write to the object [m]. *)
Definition update_map (m : HandleId) (f : MapObj → MapObj) : M unit :=
  λ w, (Returned (), set_handles (alter f m) w).

(** [mapnik.load_map(m, str(mapfile))] *)
Definition load_map (m : HandleId) (mapfile : string) : M unit :=
  engine (CLoadMap m mapfile) ;;
  update_map m (λ o, {| m_width := m_width o; m_height := m_height o;
                        m_srs := mapfile_srs env mapfile;
                        m_envelope := m_envelope o;
                        m_layers := mapfile_layers env mapfile |}).

(** [m.layers[:]]; an identifier that names no object has no layers (no
    such identifier is ever stored, see [wf_world]). *)
Definition layers_of (m : HandleId) (w : World) : list Layer :=
  match handles w !! m with
  | Some o => m_layers o
  | None => []
  end.

Definition get_layers (m : HandleId) : M (list Layer) :=
  λ w, (Returned (layers_of m w), w).

(** ** [MapnikSource.map_obj] (lines 101-129) *)

Definition cachekey_of (ctx : ExecContext) (mapfile : string) : CacheKey :=
  (process_id ctx, thread_id ctx, mapfile).

(** Lines 109-129, with the key of line 104 built. *)
Definition map_obj_keyed (cachekey : CacheKey) (mapfile : string)
    : M HandleId :=
  present ← loading_contains cachekey;
  (if negb present then
     ev ← new_event;
     loading_store cachekey ev ;;
     with_objs_lock (
       read_proc ;;                                  (* 112 *)
       a ← time_now;                                 (* 113 *)
       m ← new_map 0 0;                              (* 114 *)
       b ← time_now;                                 (* 115 *)
       load_map m mapfile ;;                         (* 117 *)
       _ ← time_now;                                 (* 118 *)
       objs_store cachekey m ;;                      (* 119 *)
       e ← loading_get cachekey;                     (* 120 *)
       event_set e ;;
       read_proc                                     (* 121 *)
     )
   else
     e ← loading_get cachekey;                       (* 125 *)
     event_wait e ;;
     engine CClearCache                              (* 126 *)
  ) ;;
  objs_get cachekey.                                 (* 129 *)

Definition map_obj (ctx : ExecContext) (mapfile : string) : M HandleId :=
  thread_id ← read_get_ident ctx;                    (* 102 *)
  let process_id := process_id ctx in                (* 103 *)
  let cachekey := (process_id, thread_id, mapfile) in (* 104 *)
  map_obj_keyed cachekey mapfile.                    (* 109-129 *)

End Program.

(** ** The pipeline object *)

(** The coverage guard: [coverage.bbox], [coverage.srs] and
    [coverage.intersects(bbox, srs)]. *)
Record Coverage := {
  cov_bbox : BBox;
  cov_srs : SRS;
  intersects : BBox → SRS → bool
}.

(** The resolution-range guard: [res_range.contains(bbox, size, srs)]. *)
Record ResRange := {
  contains : BBox → Size → SRS → bool
}.

(** The attributes [__init__] sets on [self]. *)
Record MapnikSource := {
  mapfile : string;
  coverage : option Coverage;
  res_range : option ResRange;
  layers : option (gset string);
  scale_factor : option Z;
  lock : bool;                 (* whether a render lock was passed *)
  _cache_map_obj : bool;
  extent : option (BBox * SRS);  (* None: DefaultMapExtent() *)
  opacity : option Z             (* set by MapLayer.__init__ from image_opts *)
}.

(** [ImageSource(BytesIO(data), size=..., image_opts=ImageOptions(format=...))] *)
Record ImageSource := {
  img_data : list Byte.byte;
  img_size : Size;
  img_format : string;
  img_opacity : option Z
}.

(** Truth values of the objects the code tests with [if]. *)
Definition truthy_list {A} (l : option (list A)) : bool :=
  match l with
  | Some (_ :: _) => true
  | _ => false
  end.

Definition truthy_set (s : option (gset string)) : bool :=
  match s with
  | Some s => bool_decide (s ≠ ∅)
  | None => false
  end.

Definition truthy_num (n : option Z) : bool :=
  match n with
  | Some n => negb (n =? 0)%Z
  | None => false
  end.

Definition truthy_bytes (d : option (list Byte.byte)) : bool :=
  match d with
  | Some (_ :: _) => true
  | _ => false
  end.

(** [MapnikSource.__init__] (lines 52-71): lines 61-66 bind the three
    module globals to a new dict, a new dict and a new lock. *)
Definition __init__ (mapfile : string) (layers : option (list string))
    (image_opts_opacity : option Z) (coverage : option Coverage)
    (res_range : option ResRange) (lock : bool) (reuse_map_objects : bool)
    (scale_factor : option Z) : M MapnikSource :=
  λ w,
    (Returned
       {| mapfile := mapfile;
          coverage := coverage;
          res_range := res_range;
          layers := if truthy_list layers
                    then Some (list_to_set (default [] layers)) else None;
          scale_factor := scale_factor;
          lock := lock;
          _cache_map_obj := reuse_map_objects;
          extent := match coverage with
                    | Some c => Some (cov_bbox c, cov_srs c)
                    | None => None
                    end;
          opacity := image_opts_opacity |},
     set_objs_lock_held false
       (set_map_loading (λ _, ∅) (set_map_objs (λ _, ∅) w))).

Section Render.
Context (env : Env).

(** ** The layer filter (lines 145-151) *)

(** [del m.layers[i]] *)
Definition del_layer (m : HandleId) (i : nat) : M unit :=
  λ w, if bool_decide (i < List.length (layers_of m w))%nat
       then (Returned (),
             set_handles (alter (λ o, {| m_width := m_width o;
                                         m_height := m_height o;
                                         m_srs := m_srs o;
                                         m_envelope := m_envelope o;
                                         m_layers := delete i (m_layers o) |}) m) w)
       else (Raised IndexError, w).

(** The test on line 148. *)
Definition dropped (allow : gset string) (layer : Layer) : bool :=
  bool_decide (layer_name layer ≠ "Unkown")
  && bool_decide (layer_name layer ∉ allow).

(** The loop over the copy [m.layers[:]], with the index [i]. *)
Fixpoint filter_layers (m : HandleId) (allow : gset string)
    (copy : list Layer) (i : nat) : M unit :=
  match copy with
  | [] => ret ()
  | layer :: rest =>
      if dropped allow layer
      then del_layer m i ;; filter_layers m allow rest i
      else filter_layers m allow rest (S i)
  end.

(** ** Engine calls on a handle *)

Definition resize (m : HandleId) (w h : Z) : M unit :=
  engine env (CResize m w h) ;;
  update_map m (λ o, {| m_width := w; m_height := h; m_srs := m_srs o;
                        m_envelope := m_envelope o; m_layers := m_layers o |}).

Definition set_srs (m : HandleId) (srs : string) : M unit :=
  engine env (CSetSrs m srs) ;;
  update_map m (λ o, {| m_width := m_width o; m_height := m_height o;
                        m_srs := srs; m_envelope := m_envelope o;
                        m_layers := m_layers o |}).

Definition zoom_to_box (m : HandleId) (bbox : BBox) : M unit :=
  engine env (CZoomToBox m bbox) ;;
  update_map m (λ o, {| m_width := m_width o; m_height := m_height o;
                        m_srs := m_srs o; m_envelope := Some bbox;
                        m_layers := m_layers o |}).

(** [mapnik.render(m, img)] and [mapnik.render(m, img, scale)]: the call
    is recorded with the layers the handle has when it is made. *)
Definition mapnik_render (m : HandleId) (scale : option Z) : M unit :=
  copy ← get_layers m;
  engine env (CRender m copy scale).

(** [img.tostring(str(format))] *)
Definition tostring (format : string) : M (list Byte.byte) :=
  λ w, match engine env (CToString format) w with
       | (Returned _, w') =>
           (Returned (tostring_data env (engine_calls w) format), w')
       | (Raised e, w') => (Raised e, w')
       | (Blocked, w') => (Blocked, w')
       end.

(** Modelled from the spec: [log_request] of [mapproxy.client.log], which
    is not part of the module.  It accepts the record and neither blocks
    nor fails. *)
Definition log_request (r : LogRecord) : M unit :=
  λ w, (Returned (), set_request_log (λ l, l ++ [r]) w).

(** [log.error(...)] *)
Definition log_error (msg : string) : M unit :=
  λ w, (Returned (), set_error_log (λ l, l ++ [msg]) w).

(** ** [MapnikSource._render_mapfile] (lines 134-171) *)

(** Lines 138-141: the view of the handle for this request. *)
Definition configure (m : HandleId) (query : Query) : M unit :=
  resize m (q_size query).1 (q_size query).2 ;;                 (* 138 *)
  set_srs m ("+init=" +:+ str_lower env (srs_code (q_srs query))) ;; (* 139 *)
  engine env (CBox2d (q_bbox query)) ;;                         (* 140 *)
  zoom_to_box m (q_bbox query).                                 (* 141 *)

(** Lines 145-151: the filter, when an allow-list is configured. *)
Definition filter_block (self : MapnikSource) (m : HandleId) : M unit :=
  if truthy_set (layers self) then                              (* 145 *)
    copy ← get_layers m;                                        (* 147 *)
    filter_layers m (default ∅ (layers self)) copy 0
  else ret ().

(** Lines 145-162: the body of the [try]; its value is what line 161
    binds to [data]. *)
Definition draw (self : MapnikSource) (m : HandleId) (query : Query)
    : M (list Byte.byte) :=
  filter_block self m ;;
  _ ← time_now env;                                             (* 153 *)
  engine env (CImage (q_size query).1 (q_size query).2) ;;      (* 154 *)
  _ ← time_now env;                                             (* 155 *)
  (if truthy_num (scale_factor self)                            (* 156 *)
   then mapnik_render m (scale_factor self)
   else mapnik_render m None) ;;
  _ ← time_now env;                                             (* 160 *)
  data ← tostring (q_format query);                             (* 161 *)
  _ ← time_now env;                                             (* 162 *)
  ret data.

(** The record line 167 writes, given [data] and the reading of the clock. *)
Definition request_record (mapfile : string) (query : Query)
    (start_time : Z) (data : option (list Byte.byte)) (now : Z) : LogRecord :=
  {| lr_mapfile := mapfile;
     lr_bbox := q_bbox query;
     lr_srs_code := srs_code (q_srs query);
     lr_size := q_size query;
     lr_status := if truthy_bytes data then "200" else "500";
     lr_bytes := if truthy_bytes data
                 then Some (List.length (default [] data)) else None;
     lr_method := "API";
     lr_duration := (now - start_time)%Z |}.

(** Lines 163-168: the [finally] block. *)
Definition log_finally (mapfile : string) (query : Query) (start_time : Z)
    (data : option (list Byte.byte)) : M unit :=
  now ← time_now env;
  log_request (request_record mapfile query start_time data now).

Definition _render_mapfile (self : MapnikSource) (ctx : ExecContext)
    (mapfile : string) (query : Query) : M ImageSource :=
  start_time ← time_now env;                                    (* 135 *)
  m ← map_obj env ctx mapfile;                                  (* 137 *)
  configure m query ;;                                          (* 138-141 *)
  data ← try_finally_data (draw self m query)                   (* 144-162 *)
                          (log_finally mapfile query start_time);
  ret {| img_data := data; img_size := q_size query;            (* 170 *)
         img_format := q_format query; img_opacity := None |}.

(** Modelled from the spec: [run_non_blocking] of [mapproxy.util.async_],
    which is not part of the module.  The work runs in a worker, whose
    execution context the caller of the pipeline supplies as [ctx], and
    the caller is suspended until the worker completes or fails. *)
Definition run_non_blocking {A B} (func : A → M B) (args : A) : M B :=
  func args.

(** [MapnikSource.render_mapfile] (lines 131-132) *)
Definition render_mapfile (self : MapnikSource) (ctx : ExecContext)
    (mapfile : string) (query : Query) : M ImageSource :=
  run_non_blocking (λ '(mapfile, query), _render_mapfile self ctx mapfile query)
    (mapfile, query).

(** Modelled from the spec: the lock [self.lock()] returns, which is not
    part of the module, is one serialization lock for the process, and
    imposes mutual exclusion across all render calls.  It is held when it
    was entered and not left since. *)
Definition render_lock_held (w : World) : bool :=
  match last (render_lock_log w) with
  | Some entered => entered
  | None => false
  end.

(** Entering [with self.lock():]: a caller that finds the lock held
    waits. *)
Definition render_lock_enter : M unit :=
  λ w, if render_lock_held w then (Blocked, w)
       else (Returned (), set_render_lock_log (λ l, l ++ [true]) w).

(** Leaving [with self.lock():] *)
Definition render_lock_leave : M unit :=
  λ w, (Returned (), set_render_lock_log (λ l, l ++ [false]) w).

(** Lines 89-93: the map file of the request. *)
Definition resolve_mapfile (self : MapnikSource) (query : Query) : M string :=
  if contains_substring "%(webmercator_level)" (mapfile self)
  then match webmercator_level env query with                   (* 91 *)
       | inr level =>
           match format_mapfile env (mapfile self) level with   (* 93 *)
           | inr mapfile => ret mapfile
           | inl ex => raise ex
           end
       | inl ex => raise ex
       end
  else ret (mapfile self).

(** [MapnikSource.render] (lines 88-99) *)
Definition render (self : MapnikSource) (ctx : ExecContext) (query : Query)
    : M ImageSource :=
  mapfile ← resolve_mapfile self query;                         (* 89-93 *)
  if lock self then                                             (* 95 *)
    render_lock_enter ;;                                        (* 96 *)
    try_finally (render_mapfile self ctx mapfile query)         (* 97 *)
                render_lock_leave
  else render_mapfile self ctx mapfile query.                   (* 99 *)

(** Modelled from the spec: [reraise_exception] of [mapproxy.util.py],
    which is not part of the module.  It raises the new exception in place
    of the one being handled. *)
Definition reraise_exception {A} (new_exc : PyExc) : M A := raise new_exc.

(** [ex.args[0]] *)
Definition args0 (ex : PyExc) : M string :=
  match exc_args ex with
  | msg :: _ => ret msg
  | [] => raise IndexError
  end.

(** [str(ex)], which [log.error('could not render Mapnik map: %s', ex)]
    writes: empty without arguments, the argument when there is one, and
    the text of the tuple of arguments otherwise. *)
Definition str_exc (ex : PyExc) : string :=
  match exc_args ex with
  | [] => ""
  | [msg] => msg
  | args => tuple_str env args
  end.

(** ** [MapnikSource.get_map] (lines 73-86) *)

Definition outside_res_range (self : MapnikSource) (query : Query) : bool :=
  match res_range self with
  | Some r => negb (contains r (q_bbox query) (q_size query) (q_srs query))
  | None => false
  end.

Definition outside_coverage (self : MapnikSource) (query : Query) : bool :=
  match coverage self with
  | Some c => negb (intersects c (q_bbox query) (q_srs query))
  | None => false
  end.

Definition get_map (self : MapnikSource) (ctx : ExecContext) (query : Query)
    : M ImageSource :=
  if outside_res_range self query then raise BlankImage          (* 74-76 *)
  else if outside_coverage self query then raise BlankImage      (* 77-78 *)
  else
    resp ← try_except (render self ctx query) is_RuntimeError    (* 80-82 *)
             (λ ex,
                log_error ("could not render Mapnik map: " +:+ str_exc ex) ;;
                msg ← args0 ex;
                reraise_exception (SourceError msg));            (* 84 *)
    ret {| img_data := img_data resp; img_size := img_size resp; (* 85 *)
           img_format := img_format resp; img_opacity := opacity self |}.

End Render.

(** ** [map_obj] statement by statement, for callers that interleave

    A caller of [map_obj] is at one of its lines; a step runs the line and
    moves on.  Between two steps of one caller, others may run. *)

Inductive Pc :=
| P102                          (* thread_id = ....get_ident; 103, 104 *)
| P109                          (* if cachekey not in _map_loading *)
| P110                          (* _map_loading[cachekey] = threading.Event() *)
| P111                          (* with _map_objs_lock: enter *)
| P112                          (* print(..., proc, ...) *)
| P113                          (* a = time.time() *)
| P114                          (* m = mapnik.Map(0, 0) *)
| P115 (m : HandleId)           (* b = time.time() *)
| P117 (m : HandleId)           (* mapnik.load_map(m, str(mapfile)) *)
| P118 (m : HandleId)           (* print(..., time.time() - b) *)
| P119 (m : HandleId)           (* _map_objs[cachekey] = m *)
| P120                          (* _map_loading[cachekey].set() *)
| P121                          (* print(..., proc, ...) *)
| Pexit (pending : option PyExc) (* with _map_objs_lock: leave *)
| P125                          (* _map_loading[cachekey] *)
| P125w (ev : EventId)          (* .wait() *)
| P126                          (* mapnik.clear_cache() *)
| P129                          (* return _map_objs[cachekey] *)
| Pdone (r : PyExc + HandleId). (* raised, or returned *)

Record Caller := {
  c_ctx : ExecContext;
  c_mapfile : string;
  c_pc : Pc
}.

Section Callers.
Context (env : Env).

(** An exception inside the [with] block leaves the block first. *)
Definition in_lock (c : M Pc) : M Pc :=
  λ w, match c w with
       | (Raised e, w') => (Returned (Pexit (Some e)), w')
       | r => r
       end.

(** An exception outside it ends the call. *)
Definition at_top (c : M Pc) : M Pc :=
  λ w, match c w with
       | (Raised e, w') => (Returned (Pdone (inl e)), w')
       | r => r
       end.

Definition line_step (ctx : ExecContext) (mapfile : string) (pc : Pc) : M Pc :=
  let cachekey := cachekey_of ctx mapfile in
  match pc with
  | P102 => at_top (_ ← read_get_ident env ctx; ret P109)
  | P109 => at_top (present ← loading_contains cachekey;
                    ret (if negb present then P110 else P125))
  | P110 => at_top (ev ← new_event; loading_store cachekey ev ;; ret P111)
  | P111 => at_top (lock_acquire ;; ret P112)
  | P112 => in_lock (read_proc env ;; ret P113)
  | P113 => in_lock (_ ← time_now env; ret P114)
  | P114 => in_lock (m ← new_map env 0 0; ret (P115 m))
  | P115 m => in_lock (_ ← time_now env; ret (P117 m))
  | P117 m => in_lock (load_map env m mapfile ;; ret (P118 m))
  | P118 m => in_lock (_ ← time_now env; ret (P119 m))
  | P119 m => in_lock (objs_store cachekey m ;; ret P120)
  | P120 => in_lock (e ← loading_get cachekey; event_set e ;; ret P121)
  | P121 => in_lock (read_proc env ;; ret (Pexit None))
  | Pexit pending =>
      at_top (lock_release ;;
              match pending with
              | Some e => raise e
              | None => ret P129
              end)
  | P125 => at_top (e ← loading_get cachekey; ret (P125w e))
  | P125w e => at_top (event_wait e ;; ret P126)
  | P126 => at_top (engine env CClearCache ;; ret P129)
  | P129 => at_top (m ← objs_get cachekey; ret (Pdone (inr m)))
  | Pdone r => ret (Pdone r)
  end.

Definition finished (pc : Pc) : bool :=
  match pc with
  | Pdone _ => true
  | _ => false
  end.

(** One caller running alone, for at most [n] lines: the outcome of its
    call, [Blocked] when it waits (or [n] is too small). *)
Fixpoint run_alone (n : nat) (ctx : ExecContext) (mapfile : string) (pc : Pc)
    (w : World) : Outcome HandleId * World :=
  match pc with
  | Pdone (inl e) => (Raised e, w)
  | Pdone (inr m) => (Returned m, w)
  | _ =>
      match n with
      | O => (Blocked, w)
      | S n' =>
          match line_step ctx mapfile pc w with
          | (Returned pc', w') => run_alone n' ctx mapfile pc' w'
          | (_, w') => (Blocked, w')
          end
      end
  end.

(** The scheduler lets caller [i] run one line; [None] when there is no
    such caller, it has finished, or it cannot proceed now. *)
Definition sched_step (i : nat) (cfg : World * list Caller)
    : option (World * list Caller) :=
  match cfg.2 !! i with
  | Some c =>
      if finished (c_pc c) then None
      else match line_step (c_ctx c) (c_mapfile c) (c_pc c) cfg.1 with
           | (Returned pc', w') =>
               Some (w', <[i := {| c_ctx := c_ctx c; c_mapfile := c_mapfile c;
                                   c_pc := pc' |}]> cfg.2)
           | _ => None
           end
  | None => None
  end.

Fixpoint run_schedule (sched : list nat) (cfg : World * list Caller)
    : option (World * list Caller) :=
  match sched with
  | [] => Some cfg
  | i :: rest =>
      match sched_step i cfg with
      | Some cfg' => run_schedule rest cfg'
      | None => None
      end
  end.

End Callers.

(** [n] callers at the test of line 109, for the same key. *)
Definition callers_at_entry (n : nat) (ctx : ExecContext) (mapfile : string)
    : list Caller :=
  replicate n {| c_ctx := ctx; c_mapfile := mapfile; c_pc := P109 |}.

(** How often the constructor was entered: the [mapnik.Map] calls. *)
Definition is_CMap (c : EngineCall) : bool :=
  match c with
  | CMap _ _ => true
  | _ => false
  end.

Definition constructions (w : World) : nat :=
  List.length (List.filter is_CMap (engine_calls w)).

Definition is_CClearCache (c : EngineCall) : bool :=
  match c with
  | CClearCache => true
  | _ => false
  end.

(** The handles the finished callers returned. *)
Definition returned_handles (cs : list Caller) : list HandleId :=
  omap (λ c, match c_pc c with
             | Pdone (inr m) => Some m
             | _ => None
             end) cs.

(** ** Well-formed worlds

    What holds of the tables in every world the module reaches: a stored
    handle names an object, two keys never name the same object, and a key
    whose signal is set has its handle stored. *)
Definition wf_world (w : World) : Prop :=
  (∀ k m, map_objs w !! k = Some m → (m < List.length (handles w))%nat)
  ∧ (∀ k1 k2 m, map_objs w !! k1 = Some m → map_objs w !! k2 = Some m → k1 = k2)
  ∧ (∀ k ev, map_loading w !! k = Some ev → (ev < List.length (events w))%nat)
  ∧ (∀ k ev, map_loading w !! k = Some ev → events w !! ev = Some true →
       is_Some (map_objs w !! k)).

(** The entry of key [k] is Ready with handle [m]. *)
Definition ready (w : World) (k : CacheKey) (m : HandleId) : Prop :=
  ∃ ev, map_loading w !! k = Some ev ∧ events w !! ev = Some true
        ∧ map_objs w !! k = Some m.


(** ** Notions the properties are stated with *)

Definition put_layers (L : list Layer) (o : MapObj) : MapObj :=
  {| m_width := m_width o; m_height := m_height o; m_srs := m_srs o;
     m_envelope := m_envelope o; m_layers := L |}.

(** The layers line 148 keeps. *)
Definition kept (allow : gset string) (layer : Layer) : Prop :=
  layer_name layer = "Unkown" ∨ layer_name layer ∈ allow.

#[global] Instance kept_dec allow layer : Decision (kept allow layer).
Proof. unfold kept. apply _. Defined.

(** What makes the construction on lines 112-121 fail for a caller that
    finds the key absent and the lock free: the unbound name on line 112,
    [mapnik.Map] raising, or [mapnik.load_map] raising. *)
Definition construction_error (env : Env) (mapfile : string) (w : World)
    : option PyExc :=
  if negb (proc_bound env) then Some (NameError "proc")
  else match engine_raises env (engine_calls w) (CMap 0 0) with
       | Some e => Some e
       | None =>
           engine_raises env (engine_calls w ++ [CMap 0 0])
             (CLoadMap (List.length (handles w)) mapfile)
       end.

(** The object [load_map] leaves behind for a map file. *)
Definition loaded_map (env : Env) (mapfile : string) : MapObj :=
  {| m_width := 0; m_height := 0; m_srs := mapfile_srs env mapfile;
     m_envelope := None; m_layers := mapfile_layers env mapfile |}.

(** The world after a caller that found the key absent and the lock free
    has constructed the handle. *)
Definition constructed (env : Env) (k : CacheKey) (mapfile : string)
    (w : World) : World :=
  {| map_objs := <[k := List.length (handles w)]> (map_objs w);
     map_loading := <[k := List.length (events w)]> (map_loading w);
     objs_lock_held := false;
     events := events w ++ [true];
     handles := handles w ++ [loaded_map env mapfile];
     engine_calls := engine_calls w
                     ++ [CMap 0 0; CLoadMap (List.length (handles w)) mapfile];
     request_log := request_log w;
     error_log := error_log w;
     render_lock_log := render_lock_log w;
     clock_reads := 3 + clock_reads w |}.

(** A computation keeps a relation between the world before and after it,
    whatever its outcome. *)
Definition preserves {A} (R : World → World → Prop) (c : M A) : Prop :=
  ∀ w, R w (c w).2.

(** The tables, the signals and the module lock are the same. *)
Definition same_tables (w w' : World) : Prop :=
  map_objs w' = map_objs w ∧ map_loading w' = map_loading w
  ∧ events w' = events w ∧ objs_lock_held w' = objs_lock_held w.

(** No Ready entry was downgraded or evicted. *)
Definition ready_kept (w w' : World) : Prop :=
  ∀ k m, ready w k m → ready w' k m.

(** No record was written to the request log. *)
Definition same_request_log (w w' : World) : Prop :=
  request_log w' = request_log w.

(** Only the object [m] may have been written to. *)
Definition only_touches (m : HandleId) (w w' : World) : Prop :=
  List.length (handles w') = List.length (handles w)
  ∧ ∀ h, h ≠ m → handles w' !! h = handles w !! h.

(** Nothing but the view of [m] (size, srs, envelope) was written: every
    object has the layers it had. *)
Definition same_layers (w w' : World) : Prop :=
  ∀ h, layers_of h w' = layers_of h w.

(** The engine was called, but no handle was constructed. *)
Definition no_construction (w w' : World) : Prop :=
  constructions w' = constructions w.

(** No object was written to. *)
Definition same_handles (w w' : World) : Prop :=
  handles w' = handles w.

(** ** Concrete engines, callers and requests *)

Definition roads : Layer := {| layer_name := "roads"; layer_source := 1 |}.
Definition water : Layer := {| layer_name := "water"; layer_source := 2 |}.
Definition unkown : Layer := {| layer_name := "Unkown"; layer_source := 3 |}.

(** [str(args)] for arguments without quotes or escapes. *)
Definition tuple_text (args : list string) : string :=
  "(" +:+ String.concat ", " (map (λ a, "'" +:+ a +:+ "'") args) +:+ ")".

(** An engine on which nothing fails, where the attribute of line 102 and
    the name [proc] both resolve. *)
Definition env_ok : Env :=
  {| thread_has_get_ident := true;
     proc_bound := true;
     engine_raises := λ _ _, None;
     mapfile_layers := λ _, [roads; water; unkown];
     mapfile_srs := λ _, "+init=epsg:4326";
     tostring_data := λ _ _, [Byte.x89; Byte.x50; Byte.x4e; Byte.x47];
     time_time := λ n, Z.of_nat n;
     webmercator_level := λ _, inr 0;
     format_mapfile := λ s _, inr s;
     str_lower := lower;
     tuple_str := tuple_text |}.

Definition with_engine_raises
    (f : list EngineCall → EngineCall → option PyExc) (env : Env) : Env :=
  {| thread_has_get_ident := thread_has_get_ident env;
     proc_bound := proc_bound env;
     engine_raises := f;
     mapfile_layers := mapfile_layers env;
     mapfile_srs := mapfile_srs env;
     tostring_data := tostring_data env;
     time_time := time_time env;
     webmercator_level := webmercator_level env;
     format_mapfile := format_mapfile env;
     str_lower := str_lower env;
     tuple_str := tuple_str env |}.

(** The same engine, in the module as it stands under CPython: a thread
    object has no attribute [get_ident], and nothing binds [proc]. *)
Definition env_as_is : Env :=
  {| thread_has_get_ident := false;
     proc_bound := false;
     engine_raises := engine_raises env_ok;
     mapfile_layers := mapfile_layers env_ok;
     mapfile_srs := mapfile_srs env_ok;
     tostring_data := tostring_data env_ok;
     time_time := time_time env_ok;
     webmercator_level := webmercator_level env_ok;
     format_mapfile := format_mapfile env_ok;
     str_lower := str_lower env_ok;
     tuple_str := tuple_str env_ok |}.

Definition is_CLoadMap (c : EngineCall) : bool :=
  match c with
  | CLoadMap _ _ => true
  | _ => false
  end.

Definition is_CRender (c : EngineCall) : bool :=
  match c with
  | CRender _ _ _ => true
  | _ => false
  end.

(** [load_map] fails the first time it is called and succeeds afterwards. *)
Definition env_load_fails_once : Env :=
  with_engine_raises
    (λ before c,
       if is_CLoadMap c && negb (existsb is_CLoadMap before)
       then Some {| exc_class := ClsRuntimeError;
                    exc_args := ["could not load map"] |}
       else None)
    env_ok.

(** [mapnik.render] fails with a [RuntimeError]. *)
Definition env_draw_fails : Env :=
  with_engine_raises
    (λ _ c,
       if is_CRender c
       then Some {| exc_class := ClsRuntimeError;
                    exc_args := ["render failed"] |}
       else None)
    env_ok.

Definition ctx0 : ExecContext := {| process_id := []; thread_id := 7 |}.
Definition ctx1 : ExecContext := {| process_id := []; thread_id := 8 |}.

Definition query0 : Query :=
  {| q_bbox := (0, 0, 10, 10); q_size := (256, 256);
     q_srs := {| srs_code := "EPSG:4326" |}; q_format := "png" |}.

(** [MapnikSource("base.xml")] *)
Definition source_plain : MapnikSource :=
  {| mapfile := "base.xml"; coverage := None; res_range := None;
     layers := None; scale_factor := None; lock := false;
     _cache_map_obj := false; extent := None; opacity := None |}.

(** [MapnikSource("base.xml", layers=["roads"])] *)
Definition source_roads : MapnikSource :=
  {| mapfile := "base.xml"; coverage := None; res_range := None;
     layers := Some {["roads"]}; scale_factor := None; lock := false;
     _cache_map_obj := false; extent := None; opacity := None |}.

(** A coverage the request lies outside of. *)
Definition coverage_elsewhere : Coverage :=
  {| cov_bbox := (100, 100, 110, 110); cov_srs := {| srs_code := "EPSG:4326" |};
     intersects := λ _ _, false |}.

(** [MapnikSource("base.xml", coverage=...)] *)
Definition source_covered : MapnikSource :=
  {| mapfile := "base.xml"; coverage := Some coverage_elsewhere;
     res_range := None; layers := None; scale_factor := None; lock := false;
     _cache_map_obj := false;
     extent := Some (cov_bbox coverage_elsewhere, cov_srs coverage_elsewhere);
     opacity := None |}.

(** The third argument line 157 passes to [mapnik.render], if any. *)
Definition scale_arg (self : MapnikSource) : option Z :=
  if truthy_num (scale_factor self) then scale_factor self else None.

(** The world after lines 145-151: with an allow-list configured, the
    object [m] has lost the layers that line 148 drops. *)
Definition filtered (self : MapnikSource) (m : HandleId) (w : World) : World :=
  if truthy_set (layers self)
  then set_handles
         (alter (put_layers
                   (filter (kept (default ∅ (layers self))) (layers_of m w)))
                m) w
  else w.

(** Lines 137-141 of [_render_mapfile]: what runs between the first clock
    reading and the [try]. *)
Definition acquire_and_configure (env : Env) (ctx : ExecContext)
    (mapfile : string) (query : Query) : M HandleId :=
  m ← map_obj env ctx mapfile;
  configure env m query ;;
  mret m.

(** The Ready entry of key [k] was kept, and no handle was constructed. *)
Definition reuses (k : CacheKey) (m : HandleId) (w w' : World) : Prop :=
  ready w k m → ready w' k m ∧ constructions w' = constructions w.

(** The world in which a [get_map] call that passed the guards reaches
    [map_obj]: the render lock, if any, was entered (line 96) and the clock
    was read (line 135). *)
Definition at_acquisition (self : MapnikSource) (w : World) : World :=
  set_clock_reads S
    (if lock self then set_render_lock_log (λ l, l ++ [true]) w else w).

(** Well-formedness was kept. *)
Definition wf_kept (w w' : World) : Prop :=
  wf_world w → wf_world w'.

(** The worlds the module reaches from empty tables: by constructing a
    [MapnikSource], and by a [get_map] call of any instance in any
    execution context. *)
Inductive reachable (env : Env) : World → Prop :=
| reach_empty : reachable env empty_world
| reach_init mapfile layers opacity coverage res_range lock reuse scale w :
    reachable env w →
    reachable env
      (__init__ mapfile layers opacity coverage res_range lock reuse scale w).2
| reach_get_map self ctx query w :
    reachable env w →
    reachable env (get_map env self ctx query w).2.

(** ** Notions of the further properties *)

(** What [map_obj] never writes: the logs and the record of the render
    lock; and it leaves the module lock as it found it. *)
Definition map_obj_frame (w w' : World) : Prop :=
  objs_lock_held w' = objs_lock_held w
  ∧ render_lock_log w' = render_lock_log w
  ∧ error_log w' = error_log w
  ∧ request_log w' = request_log w
  ∧ (clock_reads w ≤ clock_reads w')%nat.

(** The module lock is as it was. *)
Definition same_module_lock (w w' : World) : Prop :=
  objs_lock_held w' = objs_lock_held w.

(** The render lock was neither entered nor left. *)
Definition same_render_lock_log (w w' : World) : Prop :=
  render_lock_log w' = render_lock_log w.

(** The layers [mapnik.render] is given for a handle whose stored layers
    are [L]. *)
Definition render_layers (self : MapnikSource) (L : list Layer) : list Layer :=
  if truthy_set (layers self)
  then filter (kept (default ∅ (layers self))) L
  else L.



(** A caller is inside [with _map_objs_lock:] (lines 112-121, or about
    to leave). *)
Definition in_critical (pc : Pc) : bool :=
  match pc with
  | P112 | P113 | P114 | P115 _ | P117 _ | P118 _ | P119 _ | P120 | P121
  | Pexit _ => true
  | _ => false
  end.

Definition critical_count (cs : list Caller) : nat :=
  sum_list_with (λ c, if in_critical (c_pc c) then 1 else 0)%nat cs.

(** The module lock is taken exactly when one caller is inside the block,
    and never more than one is. *)
Definition lock_inv (cfg : World * list Caller) : Prop :=
  critical_count cfg.2 = (if objs_lock_held cfg.1 then 1 else 0)%nat.

(** [MapnikSource("base.xml", layers=["water"])] *)
Definition source_water : MapnikSource :=
  {| mapfile := "base.xml"; coverage := None; res_range := None;
     layers := Some {["water"]}; scale_factor := None; lock := false;
     _cache_map_obj := false; extent := None; opacity := None |}.

(** Nothing was written to the error log. *)
Definition same_error_log (w w' : World) : Prop :=
  error_log w' = error_log w.

(** The clock was read, if at all, after the readings before. *)
Definition clock_advances (w w' : World) : Prop :=
  (clock_reads w ≤ clock_reads w')%nat.

(** Tables that hold one Ready entry: the key of [ctx0] and "base.xml",
    its signal set, its handle loaded from the map file. *)
Definition world_cached : World :=
  {| map_objs := {[cachekey_of ctx0 "base.xml" := 0%nat]};
     map_loading := {[cachekey_of ctx0 "base.xml" := 0%nat]};
     objs_lock_held := false;
     events := [true];
     handles := [loaded_map env_as_is "base.xml"];
     engine_calls := [];
     request_log := [];
     error_log := [];
     render_lock_log := [];
     clock_reads := 0 |}.


(** [n] callers about to run line 102, for the same map file. *)
Definition callers_at_line_102 (n : nat) (ctx : ExecContext) (mapfile : string)
    : list Caller :=
  replicate n {| c_ctx := ctx; c_mapfile := mapfile; c_pc := P102 |}.

(** A caller has not started, or has ended on line 102. *)
Definition stopped_at_102 (c : Caller) : Prop :=
  c_pc c = P102 ∨ c_pc c = Pdone (inl (AttributeError "get_ident")).

(** [MapnikSource("base.xml", lock=...)] *)
Definition source_locked : MapnikSource :=
  {| mapfile := "base.xml"; coverage := None; res_range := None;
     layers := None; scale_factor := None; lock := true;
     _cache_map_obj := false; extent := None; opacity := None |}.

(** ** Properties *)

(** *** The layer filter *)

Lemma dropped_not_kept allow layer :
  dropped allow layer = true ↔ ¬ kept allow layer.
Proof.
  unfold dropped, kept.
  rewrite andb_true_iff, !bool_decide_eq_true. tauto.
Qed.

Lemma set_handles_twice f g w :
  set_handles f (set_handles g w) = set_handles (f ∘ g) w.
Proof. reflexivity. Qed.

Lemma alter_at {A} (f g : A → A) (l : list A) i x :
  l !! i = Some x → f x = g x → alter f i l = alter g i l.
Proof.
  intros Hl Hfg. apply list_eq. intros j.
  destruct (decide (i = j)) as [->|Hne].
  - rewrite !list_lookup_alter_eq, Hl. simpl. by rewrite Hfg.
  - by rewrite !list_lookup_alter_ne.
Qed.

Lemma delete_middle {A} (pre : list A) x rest :
  delete (List.length pre) (pre ++ x :: rest) = pre ++ rest.
Proof. induction pre as [|y pre IH]; simpl; [done | by rewrite IH]. Qed.

(** The loop deletes in place exactly the layers the test drops: with the
    first [i] layers of the handle already examined and kept, and [copy]
    the layers still to examine, it ends with the kept ones of [copy]
    after them. *)
Lemma filter_layers_loop allow m copy :
  ∀ pre w o,
    handles w !! m = Some o →
    m_layers o = pre ++ copy →
    filter_layers m allow copy (List.length pre) w
    = (Returned (),
       set_handles (alter (put_layers (pre ++ filter (kept allow) copy)) m) w).
Proof.
  induction copy as [|layer rest IH]; intros pre w o Hm Hl.
  - simpl. unfold ret. f_equal.
    destruct w; unfold set_handles; simpl in *. f_equal.
    symmetry. apply list_eq. intros j.
    destruct (decide (m = j)) as [<-|Hne].
    + rewrite list_lookup_alter_eq, Hm. simpl. f_equal.
      destruct o; unfold put_layers; simpl in *. by rewrite Hl, filter_nil.
    + by rewrite list_lookup_alter_ne.
  - simpl. destruct (dropped allow layer) eqn:Hd.
    + apply dropped_not_kept in Hd.
      unfold mbind, M_bind, bind, del_layer.
      assert (Hlen : (List.length pre < List.length (layers_of m w))%nat).
      { unfold layers_of. rewrite Hm, Hl, length_app. simpl. lia. }
      rewrite bool_decide_eq_true_2 by exact Hlen.
      erewrite (IH pre); cycle 1.
      * simpl. rewrite list_lookup_alter_eq, Hm. simpl. reflexivity.
      * simpl. rewrite Hl. apply delete_middle.
      * rewrite set_handles_twice. f_equal.
        destruct w; unfold set_handles; simpl in *. f_equal.
        rewrite list_alter_alter_eq.
        apply (alter_at _ _ _ _ o Hm).
        unfold put_layers; simpl. by rewrite filter_cons_False.
    + assert (Hk : kept allow layer).
      { destruct (decide (kept allow layer)) as [|Hn]; [done|].
        apply dropped_not_kept in Hn. congruence. }
      replace (S (List.length pre)) with (List.length (pre ++ [layer]))
        by (rewrite length_app; simpl; lia).
      erewrite (IH (pre ++ [layer])); [| exact Hm | by rewrite <- app_assoc].
      rewrite filter_cons_True by done. by rewrite <- app_assoc.
Qed.

(** *** Running the statements symbolically *)

Ltac fields :=
  cbn [set_map_objs set_map_loading set_objs_lock_held set_events set_handles
       set_engine_calls set_request_log set_error_log set_render_lock_log
       set_clock_reads
       map_objs map_loading objs_lock_held events handles engine_calls
       request_log error_log render_lock_log clock_reads negb fst snd] in *.

Ltac run :=
  cbv [map_obj_keyed with_objs_lock new_map alloc_map load_map update_map read_proc
       read_get_ident
       loading_contains new_event loading_store loading_get event_set
       event_wait lock_acquire lock_release objs_store objs_get engine
       time_now try_finally mbind M_bind bind mret M_ret ret raise block
       cachekey_of]; fields.

Ltac next := cbv beta iota; fields.

(** Both sides down to one record each. *)
Ltac flat :=
  cbv [set_map_objs set_map_loading set_objs_lock_held set_events set_handles
       set_engine_calls set_request_log set_error_log set_render_lock_log
       set_clock_reads
       map_objs map_loading objs_lock_held events handles engine_calls
       request_log error_log render_lock_log clock_reads].

Lemma bool_decide_is_Some_Some {A} (x : A) :
  bool_decide (is_Some (Some x)) = true.
Proof. apply bool_decide_eq_true_2. eauto. Qed.

Lemma bool_decide_is_Some_None {A} :
  bool_decide (is_Some (@None A)) = false.
Proof. apply bool_decide_eq_false_2. intros [? ?]; done. Qed.

(** *** [map_obj], path by path *)

(** Line 102 decides whether the call gets to the tables at all. *)
Lemma map_obj_resolved env ctx mapfile :
  thread_has_get_ident env = true →
  map_obj env ctx mapfile = map_obj_keyed env (cachekey_of ctx mapfile) mapfile.
Proof.
  intros Hg. unfold map_obj, read_get_ident. rewrite Hg. reflexivity.
Qed.

Lemma map_obj_unresolved env ctx mapfile w :
  thread_has_get_ident env = false →
  map_obj env ctx mapfile w = (Raised (AttributeError "get_ident"), w).
Proof.
  intros Hg. unfold map_obj, read_get_ident. rewrite Hg. reflexivity.
Qed.

(** The two cases of line 102 in a goal about [map_obj env ctx mapfile]. *)
Ltac line102 env ctx mapfile :=
  let Hg := fresh "Hg" in
  destruct (thread_has_get_ident env) eqn:Hg;
  [ rewrite ?(map_obj_resolved env ctx mapfile Hg) in *
  | rewrite ?(map_obj_unresolved env ctx mapfile _ Hg) in * ].


(** The key is present and its signal is not set: the caller waits, and
    nothing has changed. *)
Lemma map_obj_wait env k mapfile w ev :
  map_loading w !! k = Some ev →
  events w !! ev ≠ Some true →
  map_obj_keyed env (k) mapfile w = (Blocked, w).
Proof.
  intros Hl He. run.
  rewrite Hl, bool_decide_is_Some_Some. next. rewrite Hl. next.
  destruct (events w !! ev) as [[]|]; done.
Qed.

(** The key is present and its signal is set: one [clear_cache] call, then
    the stored handle. *)
Lemma map_obj_hit env k mapfile w ev :
  map_loading w !! k = Some ev →
  events w !! ev = Some true →
  map_obj_keyed env (k) mapfile w
  = let w' := set_engine_calls (λ l, l ++ [CClearCache]) w in
    match engine_raises env (engine_calls w) CClearCache with
    | Some e => (Raised e, w')
    | None =>
        match map_objs w !! k with
        | Some m => (Returned m, w')
        | None => (Raised KeyError, w')
        end
    end.
Proof.
  intros Hl He. run.
  rewrite Hl, bool_decide_is_Some_Some. next. rewrite Hl. next.
  rewrite He. next.
  destruct (engine_raises env (engine_calls w) CClearCache); next; done.
Qed.

(** The key is absent and the lock is taken: the caller has stored its
    signal and waits for the lock. *)
Lemma map_obj_miss_locked env k mapfile w :
  map_loading w !! k = None →
  objs_lock_held w = true →
  map_obj_keyed env (k) mapfile w
  = (Blocked,
     set_map_loading (<[k := List.length (events w)]>)
       (set_events (λ l, l ++ [false]) w)).
Proof.
  intros Hl Hk. run.
  rewrite Hl, bool_decide_is_Some_None. next. rewrite Hk. done.
Qed.

Lemma insert_last {A} (l : list A) (x y : A) :
  <[List.length l := y]> (l ++ [x]) = l ++ [y].
Proof. induction l as [|z l IH]; simpl; [done | by rewrite IH]. Qed.

Lemma alter_last {A} (f : A → A) (l : list A) (x : A) :
  alter f (List.length l) (l ++ [x]) = l ++ [f x].
Proof. induction l as [|z l IH]; simpl; [done | by f_equal]. Qed.

(** The key is absent, the lock is free and nothing fails: the handle is a
    new object, stored under the key, and the signal is set. *)
Lemma map_obj_miss_ok env k mapfile w :
  map_loading w !! k = None →
  objs_lock_held w = false →
  construction_error env mapfile w = None →
  map_obj_keyed env (k) mapfile w
  = (Returned (List.length (handles w)),
     constructed env (k) mapfile w).
Proof.
  intros Hl Hk Hc. unfold construction_error in Hc.
  destruct (proc_bound env) eqn:Hp; [|done]. simpl in Hc.
  destruct (engine_raises env (engine_calls w) (CMap 0 0)) eqn:H1; [done|].
  run.
  rewrite Hl, bool_decide_is_Some_None. next. rewrite Hk. next.
  rewrite Hp. next. rewrite H1. next. rewrite Hc. next.
  rewrite lookup_insert_eq. next. rewrite lookup_insert_eq. next.
  unfold constructed, loaded_map. destruct w. flat. f_equal. f_equal.
  - by rewrite insert_last.
  - by rewrite alter_last.
  - by rewrite <- app_assoc.
Qed.

(** The key is absent, the lock is free and the construction fails: the
    exception leaves [map_obj] with the lock released, the key's new signal
    stored and not set, and no handle stored. *)
Lemma map_obj_miss_fail env k mapfile w e :
  map_loading w !! k = None →
  objs_lock_held w = false →
  construction_error env mapfile w = Some e →
  ∃ w', map_obj_keyed env (k) mapfile w = (Raised e, w')
        ∧ map_objs w' = map_objs w
        ∧ map_loading w'
          = <[k := List.length (events w)]> (map_loading w)
        ∧ events w' = events w ++ [false]
        ∧ objs_lock_held w' = false
        ∧ request_log w' = request_log w
        ∧ error_log w' = error_log w
        ∧ (∃ calls, engine_calls w' = engine_calls w ++ calls
                    ∧ Forall (λ c, is_CClearCache c = false) calls
                    ∧ (List.length (List.filter is_CMap calls) ≤ 1)%nat)
        ∧ (∃ objs, handles w' = handles w ++ objs).
Proof.
  intros Hl Hk Hc. unfold construction_error in Hc.
  run.
  rewrite Hl, bool_decide_is_Some_None. next. rewrite Hk. next.
  destruct (proc_bound env) eqn:Hp; simpl in Hc; next.
  - destruct (engine_raises env (engine_calls w) (CMap 0 0)) eqn:H1; next.
    + injection Hc as <-. eexists. split; [reflexivity|]. fields.
      repeat split; try done.
      * exists [CMap 0 0]. repeat split; [|simpl; lia].
        repeat constructor.
      * exists []. by rewrite app_nil_r.
    + rewrite Hc. next. eexists. split; [reflexivity|]. fields.
      repeat split; try done.
      * exists [CMap 0 0; CLoadMap (List.length (handles w)) mapfile].
        rewrite <- app_assoc. repeat split; [|simpl; lia].
        repeat constructor.
      * by exists [blank_map 0 0].
  - injection Hc as <-. eexists. split; [reflexivity|]. fields.
    repeat split; try done.
    + exists []. rewrite app_nil_r. repeat split; [|simpl; lia]. constructor.
    + exists []. by rewrite app_nil_r.
Qed.

(** *** Well-formedness is kept *)

Lemma wf_empty_world : wf_world empty_world.
Proof.
  unfold wf_world, empty_world; simpl.
  repeat split; intros *; rewrite ?lookup_empty; done.
Qed.

(** A caller that stores a new, unset signal under an absent key. *)
Lemma wf_new_signal w w' k :
  wf_world w →
  map_objs w' = map_objs w →
  map_loading w' = <[k := List.length (events w)]> (map_loading w) →
  events w' = events w ++ [false] →
  (∃ objs, handles w' = handles w ++ objs) →
  wf_world w'.
Proof.
  intros (W1 & W2 & W3 & W4) Ho Hl He [objs Hh].
  unfold wf_world. rewrite Ho, Hl, He, Hh. repeat split.
  - intros k' m Hm. rewrite length_app. apply W1 in Hm. lia.
  - exact W2.
  - intros k' ev. rewrite length_app. simpl.
    destruct (decide (k = k')) as [<-|Hne].
    + rewrite lookup_insert_eq. intros [= <-]. lia.
    + rewrite lookup_insert_ne by done. intros Hev. apply W3 in Hev. lia.
  - intros k' ev.
    destruct (decide (k = k')) as [<-|Hne].
    + rewrite lookup_insert_eq. intros [= <-].
      rewrite lookup_app_r by lia. rewrite Nat.sub_diag. simpl. done.
    + rewrite lookup_insert_ne by done. intros Hev.
      rewrite lookup_app_l by (by apply W3 in Hev). by apply W4.
Qed.

Lemma wf_constructed env k mapfile w :
  wf_world w → map_loading w !! k = None →
  wf_world (constructed env k mapfile w).
Proof.
  intros (W1 & W2 & W3 & W4) Hk.
  unfold wf_world, constructed; simpl. repeat split.
  - intros k' m. rewrite length_app. simpl.
    destruct (decide (k = k')) as [<-|Hne].
    + rewrite lookup_insert_eq. intros [= <-]. lia.
    + rewrite lookup_insert_ne by done. intros Hm. apply W1 in Hm. lia.
  - intros k1 k2 m.
    destruct (decide (k = k1)) as [<-|H1], (decide (k = k2)) as [<-|H2];
      rewrite ?lookup_insert_eq, ?lookup_insert_ne by done; try done.
    + intros [= <-] Hm. apply W1 in Hm. lia.
    + intros Hm [= <-]. apply W1 in Hm. lia.
    + apply W2.
  - intros k' ev. rewrite length_app. simpl.
    destruct (decide (k = k')) as [<-|Hne].
    + rewrite lookup_insert_eq. intros [= <-]. lia.
    + rewrite lookup_insert_ne by done. intros Hev. apply W3 in Hev. lia.
  - intros k' ev.
    destruct (decide (k = k')) as [<-|Hne].
    + rewrite !lookup_insert_eq. eauto.
    + rewrite !lookup_insert_ne by done. intros Hev.
      rewrite lookup_app_l by (by apply W3 in Hev). by apply W4.
Qed.

Lemma wf_set_engine_calls f w : wf_world w → wf_world (set_engine_calls f w).
Proof. done. Qed.

(** The three cases of a caller that finds the key absent. *)
Lemma construction_cases env mapfile w :
  construction_error env mapfile w = None
  ∨ ∃ e, construction_error env mapfile w = Some e.
Proof. destruct (construction_error env mapfile w); eauto. Qed.

(** [map_obj] keeps the tables well-formed, whatever its outcome. *)
Lemma map_obj_wf env ctx mapfile w :
  wf_world w → wf_world (map_obj env ctx mapfile w).2.
Proof.
  intros Hwf. line102 env ctx mapfile; [|exact Hwf].
  destruct (map_loading w !! cachekey_of ctx mapfile) as [ev|] eqn:Hl.
  - destruct (decide (events w !! ev = Some true)) as [He|He].
    + rewrite (map_obj_hit _ _ _ _ ev) by done. cbv zeta.
      repeat case_match; by apply wf_set_engine_calls.
    + by rewrite (map_obj_wait _ _ _ _ ev).
  - destruct (objs_lock_held w) eqn:Hk.
    + rewrite map_obj_miss_locked by done. simpl.
      eapply wf_new_signal; [exact Hwf | done.. | by exists []; rewrite app_nil_r].
    + destruct (construction_cases env mapfile w) as [Hc|[e Hc]].
      * rewrite map_obj_miss_ok by done. simpl. by apply wf_constructed.
      * destruct (map_obj_miss_fail _ _ _ _ _ Hl Hk Hc)
          as (w' & -> & Ho & Hl' & He & _ & _ & _ & _ & Hh).
        simpl. by eapply wf_new_signal.
Qed.

Lemma wf_world_cached : wf_world world_cached.
Proof.
  unfold wf_world, world_cached; simpl. repeat split.
  - intros k m [_ <-]%lookup_singleton_Some. lia.
  - by intros k1 k2 m [<- _]%lookup_singleton_Some [<- _]%lookup_singleton_Some.
  - intros k ev [_ <-]%lookup_singleton_Some. lia.
  - intros k ev [<- _]%lookup_singleton_Some _. by rewrite lookup_singleton_eq.
Qed.

(** [__init__] leaves well-formed (empty) tables. *)
Lemma init_wf mapfile layers opacity coverage res_range lock reuse scale w :
  wf_world (__init__ mapfile layers opacity coverage res_range lock reuse
              scale w).2.
Proof.
  unfold __init__, wf_world; simpl.
  repeat split; intros *; rewrite ?lookup_empty; done.
Qed.

(** *** Frames: what a computation leaves alone *)

#[global] Instance same_tables_preorder : PreOrder same_tables.
Proof.
  split.
  - by intros w.
  - intros w1 w2 w3 (?&?&?&?) (?&?&?&?). unfold same_tables.
    repeat split; congruence.
Qed.

#[global] Instance ready_kept_preorder : PreOrder ready_kept.
Proof. split; unfold ready_kept; [intros w | intros w1 w2 w3]; eauto. Qed.

#[global] Instance same_request_log_preorder : PreOrder same_request_log.
Proof.
  split; unfold same_request_log; [intros w | intros w1 w2 w3]; congruence.
Qed.

#[global] Instance only_touches_preorder m : PreOrder (only_touches m).
Proof.
  split.
  - by intros w.
  - intros w1 w2 w3 [L1 H1] [L2 H2]. split; [congruence|].
    intros h Hh. by rewrite H2, H1.
Qed.

#[global] Instance same_layers_preorder : PreOrder same_layers.
Proof.
  split; unfold same_layers; [intros w | intros w1 w2 w3]; [done|].
  intros H1 H2 h. by rewrite H2, H1.
Qed.

#[global] Instance same_handles_preorder : PreOrder same_handles.
Proof.
  split; unfold same_handles; [intros w | intros w1 w2 w3]; congruence.
Qed.

#[global] Instance no_construction_preorder : PreOrder no_construction.
Proof.
  split; unfold no_construction; [intros w | intros w1 w2 w3]; congruence.
Qed.

Lemma same_tables_ready_kept w w' : same_tables w w' → ready_kept w w'.
Proof.
  intros (Ho & Hl & He & _) k m (ev & ? & ? & ?).
  exists ev. by rewrite Ho, Hl, He.
Qed.

#[global] Instance reuses_preorder k m : PreOrder (reuses k m).
Proof.
  split.
  - by intros w.
  - intros w1 w2 w3 H1 H2 Hr. destruct (H1 Hr) as [Hr2 C2].
    destruct (H2 Hr2) as [Hr3 C3]. split; [done | congruence].
Qed.

Lemma reuses_intro k m w w' :
  same_tables w w' → no_construction w w' → reuses k m w w'.
Proof.
  intros Ht Hc Hr. split; [|exact Hc].
  by apply (same_tables_ready_kept w w' Ht).
Qed.

Section Preserves.
Context (R : World → World → Prop) `{!PreOrder R}.

Lemma preserves_ret {A} (a : A) : preserves R (mret a).
Proof. intros w. simpl. reflexivity. Qed.

Lemma preserves_raise {A} e : preserves R (@raise A e).
Proof. intros w. simpl. reflexivity. Qed.

Lemma preserves_bind {A B} (c : M A) (k : A → M B) :
  preserves R c → (∀ a, preserves R (k a)) → preserves R (c ≫= k).
Proof.
  intros Hc Hk w. unfold mbind, M_bind, bind.
  specialize (Hc w). destruct (c w) as [[a|e|] w1]; simpl in *; try done.
  etrans; [exact Hc | apply Hk].
Qed.

Lemma preserves_try_finally {A} (body : M A) (fin : M unit) :
  preserves R body → preserves R fin → preserves R (try_finally body fin).
Proof.
  intros Hb Hf w. unfold try_finally.
  specialize (Hb w). destruct (body w) as [[a|e|] w1]; simpl in *; try done.
  - specialize (Hf w1). destruct (fin w1) as [[?|?|] w2]; simpl in *;
      by etrans.
  - specialize (Hf w1). destruct (fin w1) as [[?|?|] w2]; simpl in *;
      by etrans.
Qed.

Lemma preserves_try_finally_data {A} (body : M A) (fin : option A → M unit) :
  preserves R body → (∀ d, preserves R (fin d)) →
  preserves R (try_finally_data body fin).
Proof.
  intros Hb Hf w. unfold try_finally_data.
  specialize (Hb w). destruct (body w) as [[a|e|] w1]; simpl in *; try done.
  - specialize (Hf (Some a) w1).
    destruct (fin (Some a) w1) as [[?|?|] w2]; simpl in *; by etrans.
  - specialize (Hf None w1).
    destruct (fin None w1) as [[?|?|] w2]; simpl in *; by etrans.
Qed.

Lemma preserves_try_except {A} (body : M A) catches (handler : PyExc → M A) :
  preserves R body → (∀ e, preserves R (handler e)) →
  preserves R (try_except body catches handler).
Proof.
  intros Hb Hh w. unfold try_except.
  specialize (Hb w). destruct (body w) as [[a|e|] w1]; simpl in *; try done.
  destruct (catches e); [|done].
  etrans; [exact Hb | apply Hh].
Qed.

End Preserves.

Lemma constructions_app w c :
  constructions (set_engine_calls (λ l, l ++ [c]) w)
  = (constructions w + if is_CMap c then 1 else 0)%nat.
Proof.
  unfold constructions. simpl. rewrite List.filter_app, length_app. simpl.
  by destruct (is_CMap c).
Qed.

Lemma layers_of_alter f m h w :
  (∀ o, m_layers (f o) = m_layers o) →
  layers_of h (set_handles (alter f m) w) = layers_of h w.
Proof.
  intros Hf. unfold layers_of. simpl. rewrite list_lookup_alter.
  case_decide; [subst|done]. by destruct (handles w !! h); simpl; rewrite ?Hf.
Qed.

Lemma only_touches_alter f m w :
  only_touches m w (set_handles (alter f m) w).
Proof.
  split; simpl; [by rewrite length_alter|].
  intros h Hh. by rewrite list_lookup_alter_ne.
Qed.

(** What a statement of the render path does, unfolded. *)
Ltac prim :=
  cbv [resize set_srs zoom_to_box mapnik_render tostring log_request
       log_error render_lock_enter render_lock_leave args0 reraise_exception log_finally
       del_layer get_layers update_map engine time_now
       mbind M_bind bind mret M_ret ret raise block]; fields.

Ltac leaf :=
  let w := fresh "w" in
  intros w; prim;
  repeat (case_match; fields; simplify_eq);
  cbv beta iota; unfold snd;
  first
    [ reflexivity
    | done
    | apply same_tables_ready_kept; done
    | apply reuses_intro;
      [done | unfold no_construction; rewrite ?constructions_app; simpl; lia]
    | unfold no_construction; rewrite !constructions_app; simpl; lia
    | apply only_touches_alter
    | etrans; [| apply only_touches_alter]; done
    | intros ?; rewrite ?layers_of_alter by done; reflexivity ].

(** Splits a computation along its binds and blocks; what remains is one
    statement each. *)
Ltac frame :=
  repeat match goal with
    | |- preserves _ (mret _) => apply preserves_ret; tc_solve
    | |- preserves _ (ret _) => apply preserves_ret; tc_solve
    | |- preserves _ (raise _) => apply preserves_raise; tc_solve
    | |- preserves _ (mbind _ _) =>
        apply preserves_bind; [tc_solve | | intros ?]
    | |- preserves _ (try_finally_data _ _) =>
        apply preserves_try_finally_data; [tc_solve | | intros ?]
    | |- preserves _ (try_finally _ _) =>
        apply preserves_try_finally; [tc_solve | |]
    | |- preserves _ (try_except _ _ _) =>
        apply preserves_try_except; [tc_solve | | intros ?]
    | |- preserves _ (if ?b then _ else _) => destruct b
    | |- preserves _ (match ?b with _ => _ end) => destruct b
    end.

Section RenderFrames.
Context (env : Env).

Lemma configure_same_tables m q : preserves same_tables (configure env m q).
Proof. unfold configure, resize, set_srs, zoom_to_box. frame; leaf. Qed.

Lemma configure_same_request_log m q :
  preserves same_request_log (configure env m q).
Proof. unfold configure, resize, set_srs, zoom_to_box. frame; leaf. Qed.


Lemma configure_only_touches m q :
  preserves (only_touches m) (configure env m q).
Proof. unfold configure, resize, set_srs, zoom_to_box. frame; leaf. Qed.


Lemma filter_layers_frame (R : World → World → Prop) `{!PreOrder R} m allow :
  (∀ i, preserves R (del_layer m i)) →
  ∀ copy i, preserves R (filter_layers m allow copy i).
Proof.
  intros Hd copy. induction copy as [|layer rest IH]; intros i; simpl.
  - by apply preserves_ret.
  - destruct (dropped allow layer); [|apply IH].
    apply preserves_bind; [done | apply Hd | intros _; apply IH].
Qed.

Lemma filter_block_frame (R : World → World → Prop) `{!PreOrder R} self m :
  (∀ i, preserves R (del_layer m i)) →
  preserves R (get_layers m) →
  preserves R (filter_block self m).
Proof.
  intros Hd Hg. unfold filter_block. destruct (truthy_set (layers self)).
  - apply preserves_bind; [done | done | intros copy].
    by apply filter_layers_frame.
  - by apply preserves_ret.
Qed.

(** What follows the filter in the [try] block, lines 153-162. *)
Lemma draw_unfold self m q :
  draw env self m q
  = (filter_block self m ;;
     _ ← time_now env;
     engine env (CImage (q_size q).1 (q_size q).2) ;;
     _ ← time_now env;
     (if truthy_num (scale_factor self)
      then mapnik_render env m (scale_factor self)
      else mapnik_render env m None) ;;
     _ ← time_now env;
     data ← tostring env (q_format q);
     _ ← time_now env;
     mret data).
Proof. reflexivity. Qed.

Lemma draw_same_tables self m q : preserves same_tables (draw env self m q).
Proof.
  rewrite draw_unfold. apply preserves_bind; [tc_solve | | intros _].
  - apply filter_block_frame; [tc_solve | intros i |]; leaf.
  - unfold mapnik_render. frame; leaf.
Qed.

Lemma draw_same_request_log self m q :
  preserves same_request_log (draw env self m q).
Proof.
  rewrite draw_unfold. apply preserves_bind; [tc_solve | | intros _].
  - apply filter_block_frame; [tc_solve | intros i |]; leaf.
  - unfold mapnik_render. frame; leaf.
Qed.


Lemma draw_only_touches self m q :
  preserves (only_touches m) (draw env self m q).
Proof.
  rewrite draw_unfold. apply preserves_bind; [tc_solve | | intros _].
  - apply filter_block_frame; [tc_solve | intros i |]; leaf.
  - unfold mapnik_render. frame; leaf.
Qed.

Lemma log_finally_same_tables mapfile q start data :
  preserves same_tables (log_finally env mapfile q start data).
Proof. unfold log_finally. frame; leaf. Qed.


Lemma log_finally_same_handles mapfile q start data :
  preserves same_handles (log_finally env mapfile q start data).
Proof. unfold log_finally. frame; leaf. Qed.

End RenderFrames.

(** *** What [map_obj] leaves alone *)

(** A call that fails on line 102 leaves the world as it was, so what
    lines 109-129 keep, the call keeps. *)
Lemma map_obj_lift env (R : World → World → Prop) `{!PreOrder R} ctx mapfile :
  preserves R (map_obj_keyed env (cachekey_of ctx mapfile) mapfile) →
  preserves R (map_obj env ctx mapfile).
Proof.
  intros H w. line102 env ctx mapfile; [apply H | reflexivity].
Qed.

Section MapObjFrames.
Context (env : Env).



End MapObjFrames.

(** *** [_render_mapfile], phase by phase *)

Section RenderPhases.
Context (env : Env).

(** The phases of [_render_mapfile] written apart: the first clock
    reading and the acquisition (lines 135-137), the view (138-141), the
    [try]/[finally] (144-168), the result (170). *)
Lemma _render_mapfile_unfold self ctx mapfile q w :
  _render_mapfile env self ctx mapfile q w
  = match map_obj env ctx mapfile (set_clock_reads S w) with
    | (Returned m, w1) =>
        match configure env m q w1 with
        | (Returned _, w2) =>
            match try_finally_data (draw env self m q)
                    (log_finally env mapfile q (time_time env (clock_reads w)))
                    w2 with
            | (Returned data, w3) =>
                (Returned {| img_data := data; img_size := q_size q;
                             img_format := q_format q; img_opacity := None |},
                 w3)
            | (Raised e, w3) => (Raised e, w3)
            | (Blocked, w3) => (Blocked, w3)
            end
        | (Raised e, w2) => (Raised e, w2)
        | (Blocked, w2) => (Blocked, w2)
        end
    | (Raised e, w1) => (Raised e, w1)
    | (Blocked, w1) => (Blocked, w1)
    end.
Proof.
  unfold _render_mapfile, mbind, M_bind, bind, time_now, mret, M_ret, ret.
  destruct (map_obj env ctx mapfile (set_clock_reads S w)) as [[m|e|] w1];
    [|done..].
  destruct (configure env m q w1) as [[[]|e|] w2]; [|done..].
  by destruct (try_finally_data _ _ w2) as [[data|e|] w3].
Qed.




End RenderPhases.

(** *** Every reachable world is well-formed *)

#[global] Instance wf_kept_preorder : PreOrder wf_kept.
Proof. split; unfold wf_kept; [intros w | intros w1 w2 w3]; eauto. Qed.

Lemma wf_kept_intro w w' :
  same_tables w w' →
  List.length (handles w') = List.length (handles w) →
  wf_kept w w'.
Proof.
  intros (Ho & Hl & He & _) Hh. unfold wf_kept, wf_world.
  by rewrite Ho, Hl, He, Hh.
Qed.

Section Reachable.
Context (env : Env).

Lemma _render_mapfile_wf_kept self ctx mapfile q :
  preserves wf_kept (_render_mapfile env self ctx mapfile q).
Proof.
  unfold _render_mapfile. frame.
  - intros w. by apply wf_kept_intro.
  - intros w Hwf. by apply map_obj_wf.
  - intros w. apply wf_kept_intro;
      [apply configure_same_tables | apply configure_only_touches].
  - intros w. apply wf_kept_intro;
      [apply draw_same_tables | apply draw_only_touches].
  - intros w. apply wf_kept_intro; [apply log_finally_same_tables|].
    by rewrite log_finally_same_handles.
Qed.

Lemma get_map_wf_kept self ctx q : preserves wf_kept (get_map env self ctx q).
Proof.
  unfold get_map, render, resolve_mapfile, render_mapfile, run_non_blocking.
  frame;
    first [ apply _render_mapfile_wf_kept
          | intros w; prim; repeat case_match; by apply wf_kept_intro ].
Qed.

Lemma reachable_wf w : reachable env w → wf_world w.
Proof.
  induction 1 as [| ? ? ? ? ? ? ? ? w _ _ | self ctx q w _ IH].
  - apply wf_empty_world.
  - apply init_wf.
  - by apply get_map_wf_kept.
Qed.

End Reachable.

(** ** The guards of [get_map] *)

(** C7.  A query outside a configured resolution range, or outside a
    configured coverage, makes [get_map] raise [BlankImage] and leaves the
    world as it was: the engine is not called (no construction, no
    configure, no draw), nothing is logged and no table is touched. *)
Theorem get_map_guard_short_circuit env self ctx query w :
  (∃ r, res_range self = Some r
        ∧ contains r (q_bbox query) (q_size query) (q_srs query) = false)
  ∨ (∃ c, coverage self = Some c
          ∧ intersects c (q_bbox query) (q_srs query) = false) →
  get_map env self ctx query w = (Raised BlankImage, w)
  ∧ engine_calls (get_map env self ctx query w).2 = engine_calls w.
Proof.
  intros Hguard.
  assert (get_map env self ctx query w = (Raised BlankImage, w)) as ->;
    [|done].
  unfold get_map, outside_res_range, outside_coverage.
  destruct Hguard as [(r & -> & ->)|(c & -> & ->)]; simpl.
  - done.
  - by destruct (res_range self) as [r|]; [destruct (negb _)|].
Qed.

Lemma get_map_guard_short_circuit_witness :
  get_map env_ok source_covered ctx0 query0 empty_world
  = (Raised BlankImage, empty_world)
  ∧ engine_calls (get_map env_ok source_covered ctx0 query0 empty_world).2
    = engine_calls empty_world.
Proof.
  apply (get_map_guard_short_circuit env_ok source_covered ctx0 query0
           empty_world).
  right. exists coverage_elsewhere. split; reflexivity.
Defined.

(** ** Error translation in [get_map] *)

(** C6, as stated, fails.  In the module as it stands, a [get_map] call
    that passes the guards ends with the [AttributeError] of line 102:
    [except RuntimeError] on line 82 does not take it, so it leaves
    [get_map] as it is, neither a [SourceError] nor a [BlankImage], and
    nothing is logged. *)
Lemma get_map_raises_AttributeError :
  let r := get_map env_as_is source_plain ctx0 query0 empty_world in
  let e := AttributeError "get_ident" in
  r.1 = Raised e
  ∧ is_RuntimeError e = false
  ∧ exc_class e ≠ ClsSourceError ∧ exc_class e ≠ ClsBlankImage
  ∧ error_log r.2 = [].
Proof. vm_compute. repeat split; discriminate. Qed.

(** C6, amended.  With the guards passed, an exception [e] that leaves
    [render] is handled by class.  A [RuntimeError] is logged, as the text
    [str(e)], and replaced by a [SourceError] carrying its first argument
    (by an [IndexError] when it has none).  An exception of any other
    class leaves [get_map] unchanged, with nothing logged. *)
Theorem get_map_translates_RuntimeError env self ctx query w e :
  outside_res_range self query = false →
  outside_coverage self query = false →
  (render env self ctx query w).1 = Raised e →
  let w' := (render env self ctx query w).2 in
  let logged text :=
    set_error_log (λ l, l ++ ["could not render Mapnik map: " +:+ text]) w' in
  get_map env self ctx query w
  = if is_RuntimeError e then
      match exc_args e with
      | [] => (Raised IndexError, logged "")
      | [msg] => (Raised (SourceError msg), logged msg)
      | msg :: _ :: _ =>
          (Raised (SourceError msg), logged (tuple_str env (exc_args e)))
      end
    else (Raised e, w').
Proof.
  intros Hr Hc He. unfold get_map. rewrite Hr, Hc.
  unfold mbind, M_bind, bind, try_except.
  destruct (render env self ctx query w) as [o w1]. simpl in *. subst o.
  destruct (is_RuntimeError e); [|done].
  unfold log_error, args0, str_exc, reraise_exception, raise.
  by destruct (exc_args e) as [|msg [|msg' rest]].
Qed.

Lemma get_map_translates_RuntimeError_witness :
  get_map env_as_is source_plain ctx0 query0 empty_world
  = (Raised (AttributeError "get_ident"),
     (render env_as_is source_plain ctx0 query0 empty_world).2).
Proof.
  apply (get_map_translates_RuntimeError env_as_is source_plain ctx0
           query0 empty_world (AttributeError "get_ident"));
    vm_compute; reflexivity.
Defined.

(** ** The [try] block of [_render_mapfile] *)

Section DrawBlock.
Context (env : Env).

Lemma alter_absent {A} (f : A → A) (l : list A) i :
  l !! i = None → alter f i l = l.
Proof.
  intros Hl. apply list_eq. intros j. rewrite list_lookup_alter.
  case_decide; [subst; by rewrite Hl|done].
Qed.

(** The filter always runs to its end. *)
Lemma filter_block_spec self m w :
  filter_block self m w = (Returned (), filtered self m w).
Proof.
  unfold filter_block, filtered.
  destruct (truthy_set (layers self)); [|done].
  unfold mbind, M_bind, bind, get_layers.
  destruct (handles w !! m) as [o|] eqn:Hm.
  - rewrite (filter_layers_loop _ _ _ [] w o) by (done || by unfold layers_of; rewrite Hm).
    unfold layers_of. by rewrite Hm.
  - unfold layers_of. rewrite Hm. simpl. unfold ret. f_equal.
    destruct w; unfold set_handles; simpl in *. f_equal.
    by rewrite alter_absent.
Qed.

Lemma layers_of_filtered self m w allow o :
  layers self = Some allow → allow ≠ ∅ → handles w !! m = Some o →
  layers_of m (filtered self m w) = filter (kept allow) (m_layers o).
Proof.
  intros Hs Hne Hm. unfold filtered, truthy_set. rewrite Hs.
  rewrite bool_decide_eq_true_2 by done. simpl.
  unfold layers_of. simpl. rewrite list_lookup_alter_eq, Hm. done.
Qed.

(** The calls the block makes, in order; it stops at the first that
    raises.  The draw call is made with the layers the filter left. *)
Lemma draw_engine_calls self m q w :
  ∃ n, engine_calls (draw env self m q w).2
       = engine_calls w
         ++ take n [CImage (q_size q).1 (q_size q).2;
                    CRender m (layers_of m (filtered self m w)) (scale_arg self);
                    CToString (q_format q)].
Proof.
  rewrite draw_unfold. unfold mbind at 1, M_bind at 1, bind at 1.
  rewrite filter_block_spec.
  assert (engine_calls (filtered self m w) = engine_calls w) as Hcalls.
  { unfold filtered. by destruct (truthy_set _). }
  rewrite <- Hcalls. generalize (filtered self m w). intros w1.
  unfold scale_arg, mapnik_render. prim. unfold layers_of; fields.
  destruct (engine_raises env (engine_calls w1) _); next.
  { by exists 1%nat. }
  destruct (truthy_num (scale_factor self)); next.
  all: destruct (engine_raises env (engine_calls w1 ++ _) (CRender _ _ _));
    next; [by exists 2%nat; rewrite <- app_assoc|].
  all: destruct (engine_raises env _ (CToString _)); next;
    by exists 3%nat; rewrite <- !app_assoc.
Qed.

(** The block returns or raises; it never waits. *)
Lemma draw_not_blocked self m q w : (draw env self m q w).1 ≠ Blocked.
Proof.
  rewrite draw_unfold. unfold mbind at 1, M_bind at 1, bind at 1.
  rewrite filter_block_spec. generalize (filtered self m w). intros w1.
  unfold mapnik_render. prim.
  destruct (engine_raises env (engine_calls w1) _); next; [done|].
  destruct (truthy_num (scale_factor self)); next.
  all: destruct (engine_raises env (engine_calls w1 ++ _) (CRender _ _ _));
    next; [done|].
  all: by destruct (engine_raises env _ (CToString _)); next.
Qed.


(** The [finally] block writes one record and fails never. *)
Lemma log_finally_spec mapfile q start data w :
  log_finally env mapfile q start data w
  = (Returned (),
     set_request_log
       (λ l, l ++ [request_record mapfile q start data
                     (time_time env (clock_reads w))])
       (set_clock_reads S w)).
Proof. reflexivity. Qed.

End DrawBlock.

Lemma layers_of_filtered_gen self m w :
  layers_of m (filtered self m w) = render_layers self (layers_of m w).
Proof.
  unfold filtered, render_layers. destruct (truthy_set (layers self)); [|done].
  unfold layers_of. simpl. rewrite list_lookup_alter_eq.
  by destruct (handles w !! m).
Qed.

Lemma filtered_only_touches self m w : only_touches m w (filtered self m w).
Proof.
  unfold filtered. destruct (truthy_set (layers self)); [|done].
  apply only_touches_alter.
Qed.

(** ** The layer allow-list *)

(** C9.  With an allow-list configured, the filter keeps, in their order,
    exactly the layers named 'Unkown' or named in the list, and
    [mapnik.render] is called with these: a layer named 'Unkown' is kept
    whether the list names it or not, and a layer is removed only if its
    name differs from 'Unkown' and is not in the list. *)
Theorem layer_filter_keeps_Unkown env self m q w o allow :
  layers self = Some allow →
  allow ≠ ∅ →
  handles w !! m = Some o →
  let kept_layers := filter (kept allow) (m_layers o) in
  (∃ w', filter_block self m w = (Returned (), w')
         ∧ layers_of m w' = kept_layers)
  ∧ (∃ n, engine_calls (draw env self m q w).2
          = engine_calls w
            ++ take n [CImage (q_size q).1 (q_size q).2;
                       CRender m kept_layers (scale_arg self);
                       CToString (q_format q)])
  ∧ (∀ layer, layer ∈ kept_layers ↔
       layer ∈ m_layers o
       ∧ (layer_name layer = "Unkown" ∨ layer_name layer ∈ allow))
  ∧ (∀ layer, layer ∈ m_layers o → layer_name layer = "Unkown" →
       layer ∈ kept_layers).
Proof.
  intros Hs Hne Hm kept_layers. split; [|split; [|split]].
  - exists (filtered self m w). split; [apply filter_block_spec|].
    by apply layers_of_filtered.
  - destruct (draw_engine_calls env self m q w) as [n Hn].
    exists n. by rewrite Hn, (layers_of_filtered _ _ _ allow o).
  - intros layer. unfold kept_layers. rewrite list_elem_of_filter.
    unfold kept. tauto.
  - intros layer Hin Hname. apply list_elem_of_filter. split; [by left|done].
Qed.

Lemma layer_filter_keeps_Unkown_witness :
  let w := (map_obj env_ok ctx0 "base.xml" empty_world).2 in
  let kept_layers :=
    filter (kept {["roads"]}) (m_layers (loaded_map env_ok "base.xml")) in
  kept_layers = [roads; unkown]
  ∧ (∃ w', filter_block source_roads 0 w = (Returned (), w')
           ∧ layers_of 0 w' = kept_layers)
  ∧ (∃ n, engine_calls (draw env_ok source_roads 0 query0 w).2
          = engine_calls w
            ++ take n [CImage (q_size query0).1 (q_size query0).2;
                       CRender 0 kept_layers (scale_arg source_roads);
                       CToString (q_format query0)])
  ∧ (∀ layer, layer ∈ kept_layers ↔
       layer ∈ m_layers (loaded_map env_ok "base.xml")
       ∧ (layer_name layer = "Unkown"
          ∨ layer_name layer ∈ ({["roads"]} : gset string)))
  ∧ (∀ layer, layer ∈ m_layers (loaded_map env_ok "base.xml") →
       layer_name layer = "Unkown" → layer ∈ kept_layers).
Proof.
  split; [vm_compute; reflexivity|].
  apply (layer_filter_keeps_Unkown env_ok source_roads 0 query0
           (map_obj env_ok ctx0 "base.xml" empty_world).2
           (loaded_map env_ok "base.xml") {["roads"]}).
  - reflexivity.
  - apply non_empty_singleton_L.
  - vm_compute. reflexivity.
Defined.

(** *** The locks, the logs and the clock, phase by phase *)

#[global] Instance map_obj_frame_preorder : PreOrder map_obj_frame.
Proof.
  split.
  - intros w. unfold map_obj_frame. auto.
  - intros w1 w2 w3 (?&?&?&?&?) (?&?&?&?&?). unfold map_obj_frame.
    repeat split; try congruence. lia.
Qed.

#[global] Instance same_module_lock_preorder : PreOrder same_module_lock.
Proof.
  split; unfold same_module_lock; [intros w | intros w1 w2 w3]; congruence.
Qed.

#[global] Instance same_render_lock_log_preorder :
  PreOrder same_render_lock_log.
Proof.
  split; unfold same_render_lock_log; [intros w | intros w1 w2 w3];
    congruence.
Qed.

Lemma map_obj_map_obj_frame env ctx mapfile :
  preserves map_obj_frame (map_obj env ctx mapfile).
Proof.
  apply map_obj_lift; [tc_solve|]. intros w. unfold map_obj_frame.
  destruct (map_loading w !! cachekey_of ctx mapfile) as [ev|] eqn:Hl.
  - destruct (decide (events w !! ev = Some true)) as [He|He].
    + rewrite (map_obj_hit _ _ _ _ ev) by done. cbv zeta.
      repeat case_match; simpl; auto.
    + rewrite (map_obj_wait _ _ _ _ ev) by done. simpl. auto.
  - destruct (objs_lock_held w) eqn:Hk.
    + rewrite map_obj_miss_locked by done. simpl. auto.
    + unfold cachekey_of in Hl. run.
      rewrite Hl, bool_decide_is_Some_None. next. rewrite Hk. next.
      destruct (proc_bound env) eqn:Hp; next; [|auto].
      destruct (engine_raises env (engine_calls w) (CMap 0 0)); next;
        [repeat split; auto; lia|].
      destruct (engine_raises env _ (CLoadMap _ _)); next;
        [repeat split; auto; lia|].
      rewrite lookup_insert_eq. next. rewrite lookup_insert_eq. next.
      repeat split; auto; lia.
Qed.

Lemma same_tables_same_module_lock w w' :
  same_tables w w' → same_module_lock w w'.
Proof. by intros (_ & _ & _ & ?). Qed.

Section Locks.
Context (env : Env).

Lemma _render_mapfile_same_module_lock self ctx mapfile q :
  preserves same_module_lock (_render_mapfile env self ctx mapfile q).
Proof.
  unfold _render_mapfile. frame.
  - leaf.
  - intros w. apply map_obj_map_obj_frame.
  - intros w. apply same_tables_same_module_lock, configure_same_tables.
  - intros w. apply same_tables_same_module_lock, draw_same_tables.
  - intros w. apply same_tables_same_module_lock, log_finally_same_tables.
Qed.

Lemma configure_same_render_lock_log m q :
  preserves same_render_lock_log (configure env m q).
Proof. unfold configure, resize, set_srs, zoom_to_box. frame; leaf. Qed.

Lemma draw_same_render_lock_log self m q :
  preserves same_render_lock_log (draw env self m q).
Proof.
  rewrite draw_unfold. apply preserves_bind; [tc_solve | | intros _].
  - apply filter_block_frame; [tc_solve | intros i |]; leaf.
  - unfold mapnik_render. frame; leaf.
Qed.

Lemma _render_mapfile_same_render_lock_log self ctx mapfile q :
  preserves same_render_lock_log (_render_mapfile env self ctx mapfile q).
Proof.
  unfold _render_mapfile. frame.
  - leaf.
  - intros w. apply map_obj_map_obj_frame.
  - apply configure_same_render_lock_log.
  - apply draw_same_render_lock_log.
  - unfold log_finally. frame; leaf.
Qed.

End Locks.

#[global] Instance clock_advances_preorder : PreOrder clock_advances.
Proof.
  split; unfold clock_advances; [intros w | intros w1 w2 w3]; lia.
Qed.

Ltac clock_leaf :=
  let w := fresh "w" in
  intros w; prim;
  repeat (case_match; fields; simplify_eq);
  cbv beta iota; unfold snd, clock_advances; fields; lia.

Section Durations.
Context (env : Env).

Lemma configure_clock_advances m q :
  preserves clock_advances (configure env m q).
Proof. unfold configure, resize, set_srs, zoom_to_box. frame; clock_leaf. Qed.

Lemma draw_clock_advances self m q :
  preserves clock_advances (draw env self m q).
Proof.
  rewrite draw_unfold. apply preserves_bind; [tc_solve | | intros _].
  - apply filter_block_frame; [tc_solve | intros i |]; clock_leaf.
  - unfold mapnik_render. frame; clock_leaf.
Qed.

End Durations.

(** ** The request log *)

(** C8, as stated, fails: a call that fails before the [try] block writes
    no record.  In the module as it stands line 102 raises, on line 137 of
    [_render_mapfile]; the call raises the same exception and the request
    log stays empty. *)
Lemma render_mapfile_failed_acquisition_not_logged :
  let r := _render_mapfile env_as_is source_plain ctx0 "base.xml" query0
             empty_world in
  r.1 = Raised (AttributeError "get_ident")
  ∧ request_log r.2 = [].
Proof. vm_compute. split; reflexivity. Qed.

(** C8, amended.  A call of [_render_mapfile] that gets past the
    acquisition of the handle and its configuration (lines 137-141) writes
    exactly one record, whether the rest succeeds or fails: it names the
    map file, bounding box, srs code and size of the request and the method
    'API'; its duration is the last reading of the clock in the call (the
    one of line 167) minus the first (line 135), the last being a later
    reading than the first; its status is '200' and its size the number of
    bytes when the call returns non-empty data, and '500' with no size
    otherwise.  A call that raises or waits in lines 137-141 writes no
    record and returns nothing. *)
Theorem render_mapfile_request_log env self ctx mapfile q w :
  let start := time_time env (clock_reads w) in
  let r := _render_mapfile env self ctx mapfile q w in
  match (acquire_and_configure env ctx mapfile q (set_clock_reads S w)).1 with
  | Returned m =>
      ∃ rec, request_log r.2 = request_log w ++ [rec]
        ∧ lr_mapfile rec = mapfile
        ∧ lr_bbox rec = q_bbox q
        ∧ lr_srs_code rec = srs_code (q_srs q)
        ∧ lr_size rec = q_size q
        ∧ lr_method rec = "API"
        ∧ lr_duration rec
          = (time_time env (Nat.pred (clock_reads r.2)) - start)%Z
        ∧ (clock_reads w < Nat.pred (clock_reads r.2))%nat
        ∧ match r.1 with
          | Returned img =>
              if bool_decide (img_data img = [])
              then lr_status rec = "500" ∧ lr_bytes rec = None
              else lr_status rec = "200"
                   ∧ lr_bytes rec = Some (List.length (img_data img))
          | Raised _ => lr_status rec = "500" ∧ lr_bytes rec = None
          | Blocked => False
          end
  | _ => request_log r.2 = request_log w ∧ ∀ img, r.1 ≠ Returned img
  end.
Proof.
  intros start r. subst r. rewrite _render_mapfile_unfold.
  unfold acquire_and_configure, mbind, M_bind, bind.
  pose proof (map_obj_map_obj_frame env ctx mapfile (set_clock_reads S w))
    as (_ & _ & _ & H1 & C1).
  destruct (map_obj env ctx mapfile (set_clock_reads S w)) as [[m|e|] w1];
    simpl in H1, C1; [|done..].
  pose proof (configure_same_request_log env m q w1) as H2.
  pose proof (configure_clock_advances env m q w1) as C2.
  destruct (configure env m q w1) as [[[]|e|] w2];
    unfold same_request_log, clock_advances in H2, C2; simpl in H2, C2;
    [| simpl; split; [congruence|done]..].
  simpl. unfold try_finally_data.
  pose proof (draw_same_request_log env self m q w2) as H3.
  pose proof (draw_clock_advances env self m q w2) as C3.
  pose proof (draw_not_blocked env self m q w2) as H4.
  destruct (draw env self m q w2) as [[data|e|] w3];
    unfold same_request_log, clock_advances in H3, C3; simpl in H3, C3, H4;
    [| |done].
  - rewrite log_finally_spec. simpl.
    eexists. split; [by rewrite H3, H2, H1|].
    repeat split; [lia|].
    unfold request_record; simpl.
    by destruct data.
  - rewrite log_finally_spec. simpl.
    eexists. split; [by rewrite H3, H2, H1|].
    repeat split. lia.
Qed.




(** ** [clear_cache] on the cache-hit path *)

(** C10.  A call of [map_obj] either fails on line 102, and then nothing
    has happened, or runs lines 109-129 on its key.  There, when the key
    is in the loading table, the caller waits for the entry's signal:
    while it is not set, the caller waits and nothing happens; once it is
    set, the caller makes exactly one engine call, [clear_cache], and then
    returns the handle stored under the key (or raises what [clear_cache]
    raised).  When the key is not in the loading table, whatever the
    caller does, it never calls [clear_cache]. *)
Theorem map_obj_clear_cache env ctx mapfile w :
  wf_world w →
  let k := cachekey_of ctx mapfile in
  let r := map_obj_keyed env k mapfile w in
  (map_obj env ctx mapfile w = r
   ∨ map_obj env ctx mapfile w = (Raised (AttributeError "get_ident"), w))
  ∧ match map_loading w !! k with
    | Some ev =>
        if bool_decide (events w !! ev = Some true) then
          engine_calls r.2 = engine_calls w ++ [CClearCache]
          ∧ match engine_raises env (engine_calls w) CClearCache with
            | None => ∃ m, map_objs w !! k = Some m ∧ r.1 = Returned m
            | Some e => r.1 = Raised e
            end
        else r = (Blocked, w)
    | None =>
        ∃ calls, engine_calls r.2 = engine_calls w ++ calls
                 ∧ Forall (λ c, is_CClearCache c = false) calls
    end.
Proof.
  intros (_ & _ & _ & W4) k r. subst r. split.
  { destruct (thread_has_get_ident env) eqn:Hg.
    - left. by rewrite map_obj_resolved.
    - right. by apply map_obj_unresolved. }
  destruct (map_loading w !! k) as [ev|] eqn:Hl.
  - case_bool_decide as He.
    + rewrite (map_obj_hit _ _ _ _ ev) by done. cbv zeta.
      destruct (W4 k ev Hl He) as [m Hm]. rewrite Hm.
      destruct (engine_raises env (engine_calls w) CClearCache); [done|].
      split; [done|]. by exists m.
    + by apply (map_obj_wait _ _ _ _ ev).
  - destruct (objs_lock_held w) eqn:Hk.
    + rewrite map_obj_miss_locked by done. exists []. simpl.
      by rewrite app_nil_r.
    + destruct (construction_cases env mapfile w) as [Hc|[e Hc]].
      * rewrite map_obj_miss_ok by done. simpl. eexists. split; [done|].
        by repeat constructor.
      * destruct (map_obj_miss_fail _ _ _ _ _ Hl Hk Hc)
          as (w' & -> & _ & _ & _ & _ & _ & _ & (calls & ? & ? & _) & _).
        by exists calls.
Qed.

(** In the module as it stands, with the key Ready in the tables: lines
    109-129 call [clear_cache] once and return the stored handle, and the
    call of [map_obj] does not get to them. *)
Lemma map_obj_clear_cache_witness :
  let k := cachekey_of ctx0 "base.xml" in
  let r := map_obj_keyed env_as_is k "base.xml" world_cached in
  (map_obj env_as_is ctx0 "base.xml" world_cached = r
   ∨ map_obj env_as_is ctx0 "base.xml" world_cached
     = (Raised (AttributeError "get_ident"), world_cached))
  ∧ engine_calls r.2 = engine_calls world_cached ++ [CClearCache]
  ∧ ∃ m, map_objs world_cached !! k = Some m ∧ r.1 = Returned m.
Proof.
  apply (map_obj_clear_cache env_as_is ctx0 "base.xml" world_cached).
  apply wf_world_cached.
Defined.

(** The two paths where the attribute of line 102 and the name [proc]
    resolve: the first call constructs and does not call [clear_cache];
    the second finds the key, calls [clear_cache] once and returns the
    same handle. *)
Example map_obj_twice :
  let r1 := map_obj env_ok ctx0 "base.xml" empty_world in
  let r2 := map_obj env_ok ctx0 "base.xml" r1.2 in
  r1.1 = Returned 0%nat
  ∧ engine_calls r1.2 = [CMap 0 0; CLoadMap 0 "base.xml"]
  ∧ r2.1 = Returned 0%nat
  ∧ engine_calls r2.2 = [CMap 0 0; CLoadMap 0 "base.xml"; CClearCache].
Proof. vm_compute. repeat split; reflexivity. Qed.

(** ** The handle table across pipeline instances *)

Section Reuse.
Context (env : Env).





End Reuse.




(** C5.  Where a thread object has no attribute [get_ident], no key is
    built: every acquisition ends on line 102 with an [AttributeError],
    before line 104, and has touched nothing.  Two acquisitions, in the
    same execution context or in different ones, for the same map file or
    for different ones, obtain no handle, shared or independent. *)
Theorem map_obj_builds_no_key env c1 f1 c2 f2 w :
  thread_has_get_ident env = false →
  let r1 := map_obj env c1 f1 w in
  let r2 := map_obj env c2 f2 r1.2 in
  r1 = (Raised (AttributeError "get_ident"), w)
  ∧ r2 = (Raised (AttributeError "get_ident"), w).
Proof.
  intros Hg r1 r2. subst r1 r2.
  rewrite (map_obj_unresolved env c1 f1 w Hg). simpl.
  by rewrite (map_obj_unresolved env c2 f2 w Hg).
Qed.

Lemma map_obj_builds_no_key_witness :
  map_obj env_as_is ctx0 "base.xml" empty_world
  = (Raised (AttributeError "get_ident"), empty_world)
  ∧ map_obj env_as_is ctx0 "base.xml"
      (map_obj env_as_is ctx0 "base.xml" empty_world).2
    = (Raised (AttributeError "get_ident"), empty_world).
Proof.
  apply (map_obj_builds_no_key env_as_is ctx0 "base.xml" ctx0 "base.xml"
           empty_world).
  reflexivity.
Defined.

(** ** An acquisition that fails *)

Section FailedAcquisition.
Context (env : Env).


End FailedAcquisition.





(** ** Callers that interleave *)

Section Alone.
Context (env : Env).

Lemma run_alone_S n ctx mapfile pc w :
  finished pc = false →
  run_alone env (S n) ctx mapfile pc w
  = match line_step env ctx mapfile pc w with
    | (Returned pc', w') => run_alone env n ctx mapfile pc' w'
    | (_, w') => (Blocked, w')
    end.
Proof. by destruct pc. Qed.

Lemma run_alone_done n ctx mapfile r w :
  run_alone env n ctx mapfile (Pdone r) w
  = match r with inl e => (Raised e, w) | inr m => (Returned m, w) end.
Proof. by destruct n, r. Qed.

Ltac line :=
  rewrite run_alone_S by done;
  cbv [line_step at_top in_lock]; run.

(** From line 109 on, a caller that runs alone does what lines 109-129
    do on its key. *)
Lemma run_alone_map_obj_keyed n ctx mapfile w :
  run_alone env (14 + n) ctx mapfile P109 w
  = map_obj_keyed env (cachekey_of ctx mapfile) mapfile w.
Proof.
  change (14 + n)%nat with (S (S (S (S (S (S (S (S (S (S (S (S (S (S n)))))))))))))).
  destruct (map_loading w !! cachekey_of ctx mapfile) as [ev|] eqn:Hl.
  - destruct (decide (events w !! ev = Some true)) as [He|He].
    + rewrite (map_obj_hit _ _ _ _ ev) by done. cbv zeta.
      unfold cachekey_of in *.
      line. rewrite Hl, bool_decide_is_Some_Some. next.
      line. rewrite Hl. next.
      line. rewrite He. next.
      line. destruct (engine_raises env (engine_calls w) CClearCache); next.
      * by rewrite run_alone_done.
      * line. destruct (map_objs w !! _); next; by rewrite run_alone_done.
    + rewrite (map_obj_wait _ _ _ _ ev) by done.
      unfold cachekey_of in *.
      line. rewrite Hl, bool_decide_is_Some_Some. next.
      line. rewrite Hl. next.
      line. by destruct (events w !! ev) as [[]|].
  - destruct (objs_lock_held w) eqn:Hk.
    + rewrite map_obj_miss_locked by done. unfold cachekey_of in *.
      line. rewrite Hl, bool_decide_is_Some_None. next.
      line. line. by rewrite Hk.
    + unfold cachekey_of in *.
      line. rewrite Hl, bool_decide_is_Some_None. next.
      line. line. rewrite Hk. next.
      line. destruct (proc_bound env) eqn:Hp; next.
      2: { line. by rewrite run_alone_done. }
      line. line.
      destruct (engine_raises env (engine_calls w) (CMap 0 0)); next.
      { line. by rewrite run_alone_done. }
      line. line.
      destruct (engine_raises env _ (CLoadMap _ _)); next.
      { line. by rewrite run_alone_done. }
      line. line. line. rewrite !lookup_insert_eq. next.
      line. rewrite Hp. next.
      line. line. rewrite lookup_insert_eq. next.
      by rewrite run_alone_done.
Qed.

(** X20.  A caller that runs alone, line by line, does what [map_obj]
    does: the same outcome (it waits where [map_obj] waits) in the same
    world. *)
Lemma run_alone_map_obj n ctx mapfile w :
  run_alone env (15 + n) ctx mapfile P102 w = map_obj env ctx mapfile w.
Proof.
  change (15 + n)%nat with (S (14 + n)).
  rewrite run_alone_S by done.
  cbv [line_step at_top mbind M_bind bind].
  unfold map_obj, read_get_ident.
  destruct (thread_has_get_ident env).
  - apply run_alone_map_obj_keyed.
  - apply run_alone_done.
Qed.

(** Where line 102 raises, every step of every schedule ends the call of
    the caller that takes it, and changes nothing. *)
Lemma sched_step_stopped_at_102 i w cs cfg' :
  thread_has_get_ident env = false →
  Forall stopped_at_102 cs →
  sched_step env i (w, cs) = Some cfg' →
  cfg'.1 = w ∧ Forall stopped_at_102 cfg'.2.
Proof.
  intros Hg Hcs. unfold sched_step. simpl.
  destruct (cs !! i) as [c|] eqn:Hi; [|done].
  pose proof (proj1 (Forall_lookup _ _) Hcs i c Hi) as [Hc|Hc];
    rewrite Hc; simpl; [|done].
  cbv [at_top mbind M_bind bind]. unfold read_get_ident. rewrite Hg.
  intros [= <-]. simpl. split; [done|].
  apply Forall_insert; [done|]. by right.
Qed.

Lemma run_schedule_stopped_at_102 sched :
  thread_has_get_ident env = false →
  ∀ w cs cfg',
    Forall stopped_at_102 cs →
    run_schedule env sched (w, cs) = Some cfg' →
    cfg'.1 = w ∧ Forall stopped_at_102 cfg'.2.
Proof.
  intros Hg. induction sched as [|i sched IH]; intros w cs cfg' Hcs; simpl.
  - by intros [= <-].
  - destruct (sched_step env i (w, cs)) as [[w1 cs1]|] eqn:Hs; [|done].
    destruct (sched_step_stopped_at_102 _ _ _ _ Hg Hcs Hs) as [Hw Hcs1].
    simpl in Hw, Hcs1. subst w1. by apply IH.
Qed.

End Alone.

Lemma returned_handles_stopped_at_102 cs :
  Forall stopped_at_102 cs → returned_handles cs = [].
Proof.
  unfold returned_handles.
  induction 1 as [|c cs [Hc|Hc] _ IH]; simpl; [done|..]; by rewrite Hc.
Qed.

(** C1, at the input where it fails.  Where a thread object has no
    attribute [get_ident], a caller of [map_obj] raises on line 102 and
    receives no handle; so does every one of any number of callers,
    however their lines interleave: the constructor is not called, no
    table is touched, and no caller has a handle. *)
Theorem callers_receive_no_handle env sched w cs cfg' :
  thread_has_get_ident env = false →
  Forall (λ c, c_pc c = P102) cs →
  run_schedule env sched (w, cs) = Some cfg' →
  (∀ ctx mapfile,
     map_obj env ctx mapfile w = (Raised (AttributeError "get_ident"), w))
  ∧ cfg'.1 = w
  ∧ constructions cfg'.1 = constructions w
  ∧ returned_handles cfg'.2 = []
  ∧ Forall stopped_at_102 cfg'.2.
Proof.
  intros Hg Hcs Hrun.
  assert (Forall stopped_at_102 cs) as Hcs'.
  { eapply Forall_impl; [exact Hcs|]. intros c Hc. by left. }
  destruct (run_schedule_stopped_at_102 env sched Hg w cs cfg' Hcs' Hrun)
    as [Hw Hst].
  split; [intros ctx mapfile; by apply map_obj_unresolved|].
  split; [done|]. split; [by rewrite Hw|].
  split; [by apply returned_handles_stopped_at_102 | done].
Qed.

Lemma callers_receive_no_handle_witness :
  let failed := {| c_ctx := ctx0; c_mapfile := "base.xml";
                   c_pc := Pdone (inl (AttributeError "get_ident")) |} in
  let cfg' := (empty_world, [failed; failed]) in
  run_schedule env_as_is [0; 1]%nat
    (empty_world, callers_at_line_102 2 ctx0 "base.xml") = Some cfg'
  ∧ (∀ ctx mapfile,
       map_obj env_as_is ctx mapfile empty_world
       = (Raised (AttributeError "get_ident"), empty_world))
  ∧ cfg'.1 = empty_world
  ∧ constructions cfg'.1 = constructions empty_world
  ∧ returned_handles cfg'.2 = []
  ∧ Forall stopped_at_102 cfg'.2.
Proof.
  split; [vm_compute; reflexivity|].
  apply (callers_receive_no_handle env_as_is [0; 1]%nat empty_world
           (callers_at_line_102 2 ctx0 "base.xml")).
  - reflexivity.
  - by repeat constructor.
  - vm_compute. reflexivity.
Defined.

(** ** Further properties of the module *)

(** *** What leaves [get_map] *)

(** X1.  [get_map] never raises a [RuntimeError]: whatever leaves it is a
    [BlankImage] of the guards, the [SourceError] (or [IndexError]) of the
    handler, or an exception of [render] that is not a [RuntimeError]. *)
Theorem get_map_never_raises_RuntimeError env self ctx q w e :
  (get_map env self ctx q w).1 = Raised e →
  is_RuntimeError e = false
  ∧ (e = BlankImage
     ∨ (∃ msg, e = SourceError msg)
     ∨ e = IndexError
     ∨ (render env self ctx q w).1 = Raised e).
Proof.
  unfold get_map.
  destruct (outside_res_range self q); [intros [= <-]; auto|].
  destruct (outside_coverage self q); [intros [= <-]; auto|].
  unfold mbind, M_bind, bind, try_except.
  destruct (render env self ctx q w) as [[resp|e0|] w1]; simpl; [done| |done].
  destruct (is_RuntimeError e0) eqn:He0.
  - unfold log_error, args0, reraise_exception, raise.
    destruct (exc_args e0); simpl; intros [= <-]; eauto 6.
  - intros [= <-]. auto.
Qed.

Lemma get_map_never_raises_RuntimeError_witness :
  is_RuntimeError (SourceError "render failed") = false
  ∧ (SourceError "render failed" = BlankImage
     ∨ (∃ msg, SourceError "render failed" = SourceError msg)
     ∨ SourceError "render failed" = IndexError
     ∨ (render env_draw_fails source_plain ctx0 query0 empty_world).1
       = Raised (SourceError "render failed")).
Proof.
  apply (get_map_never_raises_RuntimeError env_draw_fails source_plain ctx0
           query0 empty_world).
  vm_compute. reflexivity.
Defined.

(** *** The two locks *)


(** X2.  [get_map] leaves the module lock as it found it, on every
    outcome: a call that returns, raises or waits for a signal has released
    [_map_objs_lock] if it took it, and a call that waits for the lock has
    not taken it. *)
Theorem get_map_keeps_module_lock env self ctx q w :
  objs_lock_held (get_map env self ctx q w).2 = objs_lock_held w
  ∧ ∀ mapfile,
      objs_lock_held (map_obj env ctx mapfile w).2 = objs_lock_held w.
Proof.
  split.
  - revert w. change (preserves same_module_lock (get_map env self ctx q)).
    unfold get_map, render, resolve_mapfile, render_mapfile, run_non_blocking.
    frame;
      first [apply _render_mapfile_same_module_lock | leaf].
  - intros mapfile. apply map_obj_map_obj_frame.
Qed.

(** Lines 89-93 read and write nothing of the world, and do not wait. *)
Lemma resolve_mapfile_pure env self q w :
  (resolve_mapfile env self q w).2 = w
  ∧ (resolve_mapfile env self q w).1 ≠ Blocked.
Proof.
  unfold resolve_mapfile.
  destruct (contains_substring _ _); [|done].
  destruct (webmercator_level env q); [done|].
  by destruct (format_mapfile env _ _).
Qed.

(** [render], case by case. *)
Lemma render_unfold env self ctx q w :
  render env self ctx q w
  = match resolve_mapfile env self q w with
    | (Returned mapfile, _) =>
        if lock self then
          if render_lock_held w then (Blocked, w)
          else
            match _render_mapfile env self ctx mapfile q
                    (set_render_lock_log (λ l, l ++ [true]) w) with
            | (Returned img, w1) =>
                (Returned img, set_render_lock_log (λ l, l ++ [false]) w1)
            | (Raised e, w1) =>
                (Raised e, set_render_lock_log (λ l, l ++ [false]) w1)
            | (Blocked, w1) => (Blocked, w1)
            end
        else _render_mapfile env self ctx mapfile q w
    | (Raised e, _) => (Raised e, w)
    | (Blocked, _) => (Blocked, w)
    end.
Proof.
  unfold render, render_mapfile, run_non_blocking.
  unfold mbind at 1, M_bind at 1, bind at 1.
  destruct (resolve_mapfile_pure env self q w) as [Hw Hb].
  destruct (resolve_mapfile env self q w) as [[mapfile|e|] w0];
    simpl in Hw, Hb; subst w0; [|done..].
  destruct (lock self); [|done].
  unfold mbind, M_bind, bind, render_lock_enter, render_lock_leave,
    try_finally.
  destruct (render_lock_held w); [done|].
  by destruct (_render_mapfile _ _ _ _ _ _) as [[img|e|] w1].
Qed.

(** X3.  With a render lock configured, a [render] call whose map file
    resolves waits at the entry of the lock while the lock is held, and
    nothing has happened.  When the lock is free, the call enters it once
    and leaves it once on every outcome that ends the call, a return as
    well as an exception, and the lock is free again; a call that waits
    inside has entered and not left, and the lock stays held.  Without a
    render lock nothing is entered. *)
Theorem render_lock_balanced env self ctx q w :
  let r := render env self ctx q w in
  if lock self then
    match (resolve_mapfile env self q w).1 with
    | Returned _ =>
        if render_lock_held w then r = (Blocked, w)
        else
          render_lock_log r.2
          = render_lock_log w
            ++ match r.1 with
               | Blocked => [true]
               | _ => [true; false]
               end
          ∧ render_lock_held r.2
            = match r.1 with
              | Blocked => true
              | _ => false
              end
    | _ => r.2 = w
    end
  else render_lock_log r.2 = render_lock_log w.
Proof.
  intros r. subst r. rewrite render_unfold.
  destruct (resolve_mapfile_pure env self q w) as [Hw Hb].
  destruct (resolve_mapfile env self q w) as [[mapfile|e|] w0];
    simpl in Hw, Hb; subst w0; [|by destruct (lock self)|done].
  destruct (lock self); simpl;
    [|apply _render_mapfile_same_render_lock_log].
  destruct (render_lock_held w); [done|].
  pose proof (_render_mapfile_same_render_lock_log env self ctx mapfile q
                (set_render_lock_log (λ l, l ++ [true]) w)) as H.
  unfold same_render_lock_log in H.
  destruct (_render_mapfile env self ctx mapfile q _) as [[img|e|] w1];
    simpl in *; unfold render_lock_held; simpl; rewrite H.
  all: rewrite last_snoc; split; [by rewrite <- ?app_assoc | done].
Qed.

(** In the module as it stands: the lock is entered, line 102 raises in
    the worker, and the lock is left. *)
Example render_lock_balanced_as_is :
  let r := render env_as_is source_locked ctx0 query0 empty_world in
  r.1 = Raised (AttributeError "get_ident")
  ∧ render_lock_log r.2 = [true; false]
  ∧ render_lock_held r.2 = false.
Proof. vm_compute. repeat split; reflexivity. Qed.

(** *** The filter on a shared handle *)


(** X4.  The filter never fails: on the handle's own list the index of
    line 149 stays in range, so no [IndexError] leaves lines 145-151.  It
    leaves on the handle a sublist of the layers it had, in their order,
    and writes to no other object. *)
Theorem filter_block_never_raises self m w :
  ∃ w', filter_block self m w = (Returned (), w')
        ∧ layers_of m w' `sublist_of` layers_of m w
        ∧ List.length (handles w') = List.length (handles w)
        ∧ ∀ h, h ≠ m → handles w' !! h = handles w !! h.
Proof.
  exists (filtered self m w). split; [apply filter_block_spec|].
  split; [|apply filtered_only_touches].
  rewrite layers_of_filtered_gen. unfold render_layers.
  destruct (truthy_set (layers self)); [apply sublist_filter|done].
Qed.

(** X5.  Filters add up on a shared handle.  After a render with the
    allow-list [a1] and one with the allow-list [a2] through the same
    handle, the handle has exactly the layers both lists keep (those named
    'Unkown' or named in both), whichever render came first; a layer one
    render dropped is not there for the next.  Rendering again with the
    same list changes nothing more. *)
Theorem filters_accumulate self1 self2 m w a1 a2 :
  layers self1 = Some a1 → a1 ≠ ∅ →
  layers self2 = Some a2 → a2 ≠ ∅ →
  let after s u := (filter_block s m u).2 in
  layers_of m (after self2 (after self1 w))
  = filter (λ l, layer_name l = "Unkown"
                 ∨ (layer_name l ∈ a1 ∧ layer_name l ∈ a2)) (layers_of m w)
  ∧ layers_of m (after self1 (after self2 w))
    = layers_of m (after self2 (after self1 w))
  ∧ layers_of m (after self1 (after self1 w)) = layers_of m (after self1 w).
Proof.
  intros H1 N1 H2 N2 after. subst after. simpl.
  rewrite !filter_block_spec. simpl. rewrite !layers_of_filtered_gen.
  unfold render_layers, truthy_set. rewrite H1, H2.
  rewrite !bool_decide_eq_true_2 by done. simpl.
  rewrite !list_filter_filter. repeat split.
  - apply list_filter_iff. intros l. unfold kept. tauto.
  - apply list_filter_iff. intros l. tauto.
  - apply list_filter_iff. intros l. tauto.
Qed.

Lemma filters_accumulate_witness :
  let w := (map_obj env_ok ctx0 "base.xml" empty_world).2 in
  let after s u := (filter_block s 0 u).2 in
  layers_of 0 (after source_water (after source_roads w))
  = filter (λ l, layer_name l = "Unkown"
                 ∨ (layer_name l ∈ ({["roads"]} : gset string)
                    ∧ layer_name l ∈ ({["water"]} : gset string)))
      (layers_of 0 w)
  ∧ layers_of 0 (after source_roads (after source_water w))
    = layers_of 0 (after source_water (after source_roads w))
  ∧ layers_of 0 (after source_roads (after source_roads w))
    = layers_of 0 (after source_roads w).
Proof.
  apply (filters_accumulate source_roads source_water 0
           (map_obj env_ok ctx0 "base.xml" empty_world).2
           {["roads"]} {["water"]}).
  - reflexivity.
  - apply non_empty_singleton_L.
  - reflexivity.
  - apply non_empty_singleton_L.
Defined.

(** On the handle of the examples: roads, water and Unkown; after a render
    for roads and one for water only Unkown is left. *)
Example filters_accumulate_example :
  let w := (map_obj env_ok ctx0 "base.xml" empty_world).2 in
  layers_of 0 (filter_block source_water 0
                 (filter_block source_roads 0 w).2).2 = [unkown].
Proof. vm_compute. reflexivity. Qed.

(** *** What [map_obj] raises *)

(** X6.  In a well-formed world, the lookups of lines 120, 125 and 129
    never fail: an exception that leaves [map_obj] is the [AttributeError]
    of line 102, the [NameError] of the unbound [proc], or what
    [mapnik.Map], [mapnik.load_map] or [mapnik.clear_cache] raised. *)
Theorem map_obj_raises_only_what_failed env ctx mapfile w e :
  wf_world w →
  (map_obj env ctx mapfile w).1 = Raised e →
  (thread_has_get_ident env = false ∧ e = AttributeError "get_ident")
  ∨ (proc_bound env = false ∧ e = NameError "proc")
  ∨ engine_raises env (engine_calls w) (CMap 0 0) = Some e
  ∨ engine_raises env (engine_calls w ++ [CMap 0 0])
      (CLoadMap (List.length (handles w)) mapfile) = Some e
  ∨ engine_raises env (engine_calls w) CClearCache = Some e.
Proof.
  intros (_ & _ & _ & W4) Hr.
  destruct (thread_has_get_ident env) eqn:Hg.
  2:{ rewrite (map_obj_unresolved env ctx mapfile w Hg) in Hr.
      left. split; [done|]. simpl in Hr. congruence. }
  rewrite (map_obj_resolved env ctx mapfile Hg) in Hr. right.
  destruct (map_loading w !! cachekey_of ctx mapfile) as [ev|] eqn:Hl.
  - destruct (decide (events w !! ev = Some true)) as [He|He].
    + rewrite (map_obj_hit _ _ _ _ ev) in Hr by done. cbv zeta in Hr.
      destruct (W4 _ _ Hl He) as [m Hm]. rewrite Hm in Hr.
      destruct (engine_raises env (engine_calls w) CClearCache); [|done].
      simpl in Hr. injection Hr as <-. auto.
    + by rewrite (map_obj_wait _ _ _ _ ev) in Hr.
  - destruct (objs_lock_held w) eqn:Hk.
    + by rewrite map_obj_miss_locked in Hr.
    + destruct (construction_cases env mapfile w) as [Hc|[e' Hc]].
      * by rewrite map_obj_miss_ok in Hr.
      * destruct (map_obj_miss_fail _ _ _ _ _ Hl Hk Hc) as (w' & Hw & _).
        rewrite Hw in Hr. simpl in Hr. injection Hr as ->.
        unfold construction_error in Hc.
        destruct (proc_bound env); simpl in Hc; [|left; split; congruence].
        destruct (engine_raises env (engine_calls w) (CMap 0 0));
          [right; left; congruence | auto].
Qed.

Lemma map_obj_raises_only_what_failed_witness :
  let e := AttributeError "get_ident" in
  (thread_has_get_ident env_as_is = false ∧ e = AttributeError "get_ident")
  ∨ (proc_bound env_as_is = false ∧ e = NameError "proc")
  ∨ engine_raises env_as_is (engine_calls empty_world) (CMap 0 0) = Some e
  ∨ engine_raises env_as_is (engine_calls empty_world ++ [CMap 0 0])
      (CLoadMap (List.length (handles empty_world)) "base.xml") = Some e
  ∨ engine_raises env_as_is (engine_calls empty_world) CClearCache = Some e.
Proof.
  apply (map_obj_raises_only_what_failed env_as_is ctx0 "base.xml"
           empty_world).
  - apply wf_empty_world.
  - vm_compute. reflexivity.
Defined.

(** *** The tables in every reachable world *)

(** X7.  In every world the module reaches from empty tables, by
    constructing sources and by [get_map] calls of any instance in any
    execution context, whatever fails on the way: a stored handle names an
    existing object, no object is stored under two keys, and a key whose
    signal is set has its handle stored, so that a caller that has waited
    finds it. *)
Theorem reachable_tables_consistent env w :
  reachable env w →
  (∀ k m, map_objs w !! k = Some m → is_Some (handles w !! m))
  ∧ (∀ k1 k2 m, map_objs w !! k1 = Some m → map_objs w !! k2 = Some m →
       k1 = k2)
  ∧ (∀ k ev, map_loading w !! k = Some ev → events w !! ev = Some true →
       ∃ m, map_objs w !! k = Some m ∧ is_Some (handles w !! m)).
Proof.
  intros Hr. destruct (reachable_wf env w Hr) as (W1 & W2 & _ & W4).
  split; [|split].
  - intros k m Hm. apply lookup_lt_is_Some. by apply (W1 k).
  - exact W2.
  - intros k ev Hev He. destruct (W4 k ev Hev He) as [m Hm].
    exists m. split; [done|]. apply lookup_lt_is_Some. by apply (W1 k).
Qed.

Lemma reachable_tables_consistent_witness :
  let w := (get_map env_load_fails_once source_roads ctx1 query0
              (get_map env_load_fails_once source_plain ctx0 query0
                 empty_world).2).2 in
  (∀ k m, map_objs w !! k = Some m → is_Some (handles w !! m))
  ∧ (∀ k1 k2 m, map_objs w !! k1 = Some m → map_objs w !! k2 = Some m →
       k1 = k2)
  ∧ (∀ k ev, map_loading w !! k = Some ev → events w !! ev = Some true →
       ∃ m, map_objs w !! k = Some m ∧ is_Some (handles w !! m)).
Proof.
  apply (reachable_tables_consistent env_load_fails_once).
  apply reach_get_map, reach_get_map, reach_empty.
Defined.

(** *** The module lock under interleaving *)

Section MutualExclusion.
Context (env : Env).

(** What a line does to the lock, by whether the caller is inside the
    [with] block before and after it. *)
Lemma line_step_lock ctx mapfile pc w pc' w' :
  line_step env ctx mapfile pc w = (Returned pc', w') →
  match in_critical pc, in_critical pc' with
  | false, true => objs_lock_held w = false ∧ objs_lock_held w' = true
  | true, false => objs_lock_held w' = false
  | _, _ => objs_lock_held w' = objs_lock_held w
  end.
Proof.
  destruct pc; cbv [line_step at_top in_lock]; run; intros Hs;
    repeat (case_match; fields; simplify_eq); simpl; auto.
Qed.

Lemma critical_count_insert cs i c c' :
  cs !! i = Some c →
  (critical_count (<[i := c']> cs)
   + (if in_critical (c_pc c) then 1 else 0)
   = critical_count cs + (if in_critical (c_pc c') then 1 else 0))%nat.
Proof.
  unfold critical_count. revert i.
  induction cs as [|x cs IH]; intros [|i] Hi; simplify_eq/=.
  - lia.
  - specialize (IH i Hi). lia.
Qed.

Lemma sched_step_lock_inv i cfg cfg' :
  lock_inv cfg → sched_step env i cfg = Some cfg' → lock_inv cfg'.
Proof.
  unfold lock_inv, sched_step. destruct cfg as [w cs]. simpl.
  intros Hinv Hs.
  destruct (cs !! i) as [c|] eqn:Hc; [|done].
  destruct (finished (c_pc c)); [done|].
  destruct (line_step env (c_ctx c) (c_mapfile c) (c_pc c) w)
    as [[pc'| |] w'] eqn:Hl; [|done..].
  injection Hs as <-. simpl.
  pose proof (line_step_lock _ _ _ _ _ _ Hl) as Hlock.
  pose proof (critical_count_insert cs i c
                {| c_ctx := c_ctx c; c_mapfile := c_mapfile c; c_pc := pc' |}
                Hc) as Hcount.
  simpl in Hcount.
  destruct (in_critical (c_pc c)), (in_critical pc');
    destruct (objs_lock_held w), (objs_lock_held w');
    destruct_and?; simplify_eq; lia.
Qed.

Lemma run_schedule_lock_inv sched :
  ∀ cfg cfg', lock_inv cfg → run_schedule env sched cfg = Some cfg' →
              lock_inv cfg'.
Proof.
  induction sched as [|i sched IH]; intros cfg cfg' Hinv Hr; simpl in Hr.
  - by injection Hr as <-.
  - destruct (sched_step env i cfg) as [cfg1|] eqn:Hs; [|done].
    eapply IH; [|done]. by eapply sched_step_lock_inv.
Qed.

End MutualExclusion.

(** X11.  The module lock keeps the constructions apart.  Any number of
    callers enter [map_obj], for any keys, with the lock free; however
    their lines interleave, at most one caller is inside the [with] block
    (lines 112-121) at any time, and the lock is taken exactly when one
    is. *)
Theorem module_lock_mutual_exclusion env sched w cs cfg' :
  objs_lock_held w = false →
  Forall (λ c, c_pc c = P109) cs →
  run_schedule env sched (w, cs) = Some cfg' →
  (critical_count cfg'.2 ≤ 1)%nat
  ∧ (critical_count cfg'.2 = 1%nat ↔ objs_lock_held cfg'.1 = true).
Proof.
  intros Hk Hcs Hr.
  assert (lock_inv (w, cs)) as Hinv.
  { unfold lock_inv, critical_count. simpl. rewrite Hk. clear Hr.
    induction Hcs as [|c cs Hc _ IH]; [done|]. simpl in *.
    rewrite Hc. simpl. exact IH. }
  pose proof (run_schedule_lock_inv env sched _ _ Hinv Hr) as Hinv'.
  unfold lock_inv in Hinv'.
  destruct (objs_lock_held cfg'.1); rewrite Hinv'; split; try lia; done.
Qed.

Lemma module_lock_mutual_exclusion_witness :
  ∃ cfg',
    run_schedule env_ok [0; 1; 0; 0; 0; 1]%nat
      (empty_world, callers_at_entry 2 ctx0 "base.xml") = Some cfg'
    ∧ (critical_count cfg'.2 ≤ 1)%nat
    ∧ (critical_count cfg'.2 = 1%nat ↔ objs_lock_held cfg'.1 = true).
Proof.
  eexists. split; [vm_compute; reflexivity|].
  apply (module_lock_mutual_exclusion env_ok [0; 1; 0; 0; 0; 1]%nat
           empty_world (callers_at_entry 2 ctx0 "base.xml")).
  - reflexivity.
  - repeat constructor.
  - vm_compute. reflexivity.
Defined.

(** *** After a [MapnikSource] is constructed *)

(** X12.  After [__init__], no acquisition waits: every key is absent and
    the lock is a new one.  A call of [map_obj] raises on line 102, or it
    takes the construction branch, for a key that a failed construction
    had left Loading too; then it returns a new handle when the
    construction succeeds and raises what the construction raised
    otherwise. *)
Theorem init_then_map_obj_constructs env mapfile' layers opacity coverage
    res_range lock reuse scale w ctx mapfile :
  let w' := (__init__ mapfile' layers opacity coverage res_range lock reuse
               scale w).2 in
  let r := map_obj env ctx mapfile w' in
  r.1 ≠ Blocked
  ∧ if thread_has_get_ident env then
      match construction_error env mapfile w with
      | None =>
          r.1 = Returned (List.length (handles w))
          ∧ ready r.2 (cachekey_of ctx mapfile) (List.length (handles w))
          ∧ constructions r.2 = S (constructions w)
      | Some e => r.1 = Raised e
      end
    else r = (Raised (AttributeError "get_ident"), w').
Proof.
  intros w' r.
  assert (map_loading w' !! cachekey_of ctx mapfile = None) as Hl
    by apply lookup_empty.
  assert (objs_lock_held w' = false) as Hk by done.
  assert (construction_error env mapfile w' = construction_error env mapfile w)
    as Hce by done.
  subst r. destruct (thread_has_get_ident env) eqn:Hg.
  2:{ by rewrite (map_obj_unresolved env ctx mapfile w' Hg). }
  rewrite (map_obj_resolved env ctx mapfile Hg).
  destruct (construction_error env mapfile w) as [e|] eqn:Hc.
  - destruct (map_obj_miss_fail env _ mapfile w' e Hl Hk Hce)
      as (u & -> & _). done.
  - rewrite (map_obj_miss_ok env _ mapfile w' Hl Hk Hce). simpl.
    repeat split; [done| |].
    + exists (List.length (events w)). simpl.
      rewrite !lookup_insert_eq. repeat split.
      rewrite lookup_app_r by lia. by rewrite Nat.sub_diag.
    + unfold constructions. simpl.
      rewrite List.filter_app, length_app. simpl. lia.
Qed.

(** X13.  [__init__] keeps an allow-list only if it is given and not
    empty: a source made with [layers=None] or [layers=[]] never filters,
    and one made with a non-empty list keeps a layer exactly when it is
    named 'Unkown' or its name occurs in the list, in whatever order and
    however often the list names it. *)
Theorem init_allow_list mapfile layers_arg opacity coverage res_range lock
    reuse scale w self w' :
  __init__ mapfile layers_arg opacity coverage res_range lock reuse scale w
  = (Returned self, w') →
  truthy_set (layers self) = truthy_list layers_arg
  ∧ (truthy_list layers_arg = false →
       ∀ m u, filter_block self m u = (Returned (), u))
  ∧ (truthy_list layers_arg = true →
       ∀ m u, layers_of m (filter_block self m u).2
              = filter (λ l, layer_name l = "Unkown"
                             ∨ layer_name l ∈ default [] layers_arg)
                  (layers_of m u)).
Proof.
  unfold __init__. intros [= <- <-].
  assert (∀ (x : string) l, (list_to_set (x :: l) : gset string) ≠ ∅)
    as Hne.
  { intros x l. simpl. set_solver. }
  split; [|split].
  - unfold truthy_set. cbn [layers].
    destruct layers_arg as [[|x l]|]; cbn [truthy_list default]; try done.
    apply bool_decide_eq_true_2, Hne.
  - intros Hf m u. unfold filter_block, truthy_set. cbn [layers].
    by rewrite Hf.
  - intros Ht m u. rewrite filter_block_spec. cbn [snd].
    rewrite layers_of_filtered_gen.
    unfold render_layers, truthy_set. cbn [layers]. rewrite Ht.
    destruct layers_arg as [[|x l]|]; try done. cbn [default].
    rewrite bool_decide_eq_true_2 by apply Hne.
    apply list_filter_iff. intros layer. unfold kept, id.
    by rewrite elem_of_list_to_set.
Qed.

Lemma init_allow_list_witness :
  let self := {| mapfile := "base.xml"; coverage := None; res_range := None;
                 layers := Some (list_to_set ["roads"; "roads"]);
                 scale_factor := None; lock := false; _cache_map_obj := true;
                 extent := None; opacity := None |} in
  truthy_set (layers self) = truthy_list (Some ["roads"; "roads"])
  ∧ (truthy_list (Some ["roads"; "roads"]) = false →
       ∀ m u, filter_block self m u = (Returned (), u))
  ∧ (truthy_list (Some ["roads"; "roads"]) = true →
       ∀ m u, layers_of m (filter_block self m u).2
              = filter (λ l, layer_name l = "Unkown"
                             ∨ layer_name l
                               ∈ default [] (Some ["roads"; "roads"]))
                  (layers_of m u)).
Proof.
  apply (init_allow_list "base.xml" (Some ["roads"; "roads"]) None None None
           false true None empty_world
           {| mapfile := "base.xml"; coverage := None; res_range := None;
              layers := Some (list_to_set ["roads"; "roads"]);
              scale_factor := None; lock := false; _cache_map_obj := true;
              extent := None; opacity := None |}
           (__init__ "base.xml" (Some ["roads"; "roads"]) None None None
              false true None empty_world).2).
  reflexivity.
Defined.

(** *** The object store *)

(** X15.  An acquisition writes to no existing map object and creates at
    most one: the objects that earlier callers hold stay as they are,
    whatever the outcome, also when the table entry of their key is
    overwritten; and an object is created only by a call of
    [mapnik.Map]. *)
Theorem map_obj_creates_at_most_one_object env ctx mapfile w :
  ∃ objs,
    handles (map_obj env ctx mapfile w).2 = handles w ++ objs
    ∧ (List.length objs
       ≤ constructions (map_obj env ctx mapfile w).2 - constructions w)%nat
    ∧ (constructions (map_obj env ctx mapfile w).2 ≤ S (constructions w))%nat.
Proof.
  assert (∀ c, constructions (set_engine_calls (λ l, l ++ [c]) w)
               = (constructions w + if is_CMap c then 1 else 0)%nat) as Hc1
    by apply constructions_app.
  destruct (thread_has_get_ident env) eqn:Hg.
  2:{ rewrite (map_obj_unresolved env ctx mapfile w Hg). simpl.
      exists []. rewrite app_nil_r. repeat split; simpl; lia. }
  rewrite (map_obj_resolved env ctx mapfile Hg).
  destruct (map_loading w !! cachekey_of ctx mapfile) as [ev|] eqn:Hl.
  - exists []. rewrite app_nil_r.
    destruct (decide (events w !! ev = Some true)) as [He|He].
    + rewrite (map_obj_hit _ _ _ _ ev) by done. cbv zeta.
      repeat case_match; simpl; rewrite Hc1; simpl; repeat split; lia.
    + rewrite (map_obj_wait _ _ _ _ ev) by done. simpl.
      repeat split; lia.
  - destruct (objs_lock_held w) eqn:Hk.
    + exists []. rewrite app_nil_r, map_obj_miss_locked by done. simpl.
      unfold constructions. simpl. repeat split; lia.
    + unfold cachekey_of in Hl. run.
      rewrite Hl, bool_decide_is_Some_None. next. rewrite Hk. next.
      unfold constructions.
      destruct (proc_bound env) eqn:Hp; next.
      2: { exists []. rewrite app_nil_r. simpl. repeat split; lia. }
      destruct (engine_raises env (engine_calls w) (CMap 0 0)); next.
      { exists []. rewrite app_nil_r. simpl.
        rewrite List.filter_app, length_app. simpl. repeat split; lia. }
      destruct (engine_raises env _ (CLoadMap _ _)); next.
      { exists [blank_map 0 0]. simpl.
        rewrite !List.filter_app, !length_app. simpl. repeat split; lia. }
      rewrite lookup_insert_eq. next. rewrite lookup_insert_eq. next.
      eexists [_]. simpl. rewrite alter_last.
      rewrite !List.filter_app, !length_app. simpl. repeat split; lia.
Qed.

(** *** The error log *)

#[global] Instance same_error_log_preorder : PreOrder same_error_log.
Proof.
  split; unfold same_error_log; [intros w | intros w1 w2 w3]; congruence.
Qed.

Section ErrorLog.
Context (env : Env).

Lemma _render_mapfile_same_error_log self ctx mapfile q :
  preserves same_error_log (_render_mapfile env self ctx mapfile q).
Proof.
  unfold _render_mapfile. frame.
  - leaf.
  - intros w. apply map_obj_map_obj_frame.
  - unfold configure, resize, set_srs, zoom_to_box. frame; leaf.
  - rewrite draw_unfold. apply preserves_bind; [tc_solve | | intros _].
    + apply filter_block_frame; [tc_solve | intros i |]; leaf.
    + unfold mapnik_render. frame; leaf.
  - unfold log_finally. frame; leaf.
Qed.

Lemma render_same_error_log self ctx q :
  preserves same_error_log (render env self ctx q).
Proof.
  unfold render, resolve_mapfile, render_mapfile, run_non_blocking. frame;
    first [apply _render_mapfile_same_error_log | leaf].
Qed.

End ErrorLog.

(** X17.  [get_map] writes to the error log exactly when it translates: one
    message, with the text [str(e)] of the exception (empty without
    arguments, the argument when there is one, the text of the tuple of
    arguments otherwise), when a [RuntimeError] leaves [render], and
    nothing on any other outcome (a return, a wait, another exception, a
    query the guards turn away). *)
Theorem get_map_error_log env self ctx q w :
  error_log (get_map env self ctx q w).2
  = error_log w
    ++ (if outside_res_range self q || outside_coverage self q then []
        else match (render env self ctx q w).1 with
             | Raised e =>
                 if is_RuntimeError e
                 then ["could not render Mapnik map: "
                       +:+ match exc_args e with
                           | [] => ""
                           | [msg] => msg
                           | _ :: _ :: _ => tuple_str env (exc_args e)
                           end]
                 else []
             | _ => []
             end).
Proof.
  unfold get_map.
  destruct (outside_res_range self q); [by rewrite app_nil_r|].
  destruct (outside_coverage self q); [by rewrite app_nil_r|]. simpl.
  pose proof (render_same_error_log env self ctx q w) as H.
  unfold same_error_log in H.
  unfold mbind, M_bind, bind, try_except.
  destruct (render env self ctx q w) as [[resp|e|] w1]; simpl in *;
    rewrite ?app_nil_r; try done.
  destruct (is_RuntimeError e); [|by rewrite app_nil_r].
  unfold log_error, args0, str_exc, reraise_exception, raise.
  destruct (exc_args e) as [|msg [|msg' rest]]; simpl; by rewrite H.
Qed.

(** *** [get_map] where line 102 raises *)

(** X21.  Where a thread object has no attribute [get_ident], a [get_map]
    call that the guards let pass, whose map file resolves and whose
    render lock, if any, is free, ends with the [AttributeError] of line
    102.  It has read the clock once and, with a render lock, entered and
    left it; it has called the engine not at all, touched no table and
    written to no log. *)
Theorem get_map_where_line_102_raises env self ctx q w mapfile :
  thread_has_get_ident env = false →
  outside_res_range self q = false →
  outside_coverage self q = false →
  resolve_mapfile env self q w = (Returned mapfile, w) →
  (lock self = true → render_lock_held w = false) →
  get_map env self ctx q w
  = (Raised (AttributeError "get_ident"),
     if lock self
     then set_render_lock_log (λ l, l ++ [false]) (at_acquisition self w)
     else at_acquisition self w).
Proof.
  intros Hg Hr Hc Hres Hfree. unfold get_map. rewrite Hr, Hc.
  unfold mbind, M_bind, bind, try_except. rewrite render_unfold, Hres.
  unfold at_acquisition.
  destruct (lock self).
  - rewrite Hfree by done. rewrite _render_mapfile_unfold.
    by rewrite (map_obj_unresolved env ctx mapfile _ Hg).
  - rewrite _render_mapfile_unfold.
    by rewrite (map_obj_unresolved env ctx mapfile _ Hg).
Qed.

Lemma get_map_where_line_102_raises_witness :
  get_map env_as_is source_locked ctx0 query0 empty_world
  = (Raised (AttributeError "get_ident"),
     set_render_lock_log (λ l, l ++ [false])
       (at_acquisition source_locked empty_world)).
Proof.
  apply (get_map_where_line_102_raises env_as_is source_locked ctx0 query0
           empty_world "base.xml"); try reflexivity.
Defined.

(** *** The duration in a record *)


(** X19.  On a clock that does not run backwards, no record has a negative
    duration: whatever a call of [_render_mapfile] appends to the request
    log carries the difference of a later and an earlier reading of the
    clock. *)
Theorem request_durations_nonnegative env self ctx mapfile q w :
  (∀ i j, (i ≤ j)%nat → (time_time env i ≤ time_time env j)%Z) →
  ∃ recs,
    request_log (_render_mapfile env self ctx mapfile q w).2
    = request_log w ++ recs
    ∧ Forall (λ rec, (0 ≤ lr_duration rec)%Z) recs.
Proof.
  intros Hmono. rewrite _render_mapfile_unfold.
  pose proof (map_obj_map_obj_frame env ctx mapfile (set_clock_reads S w))
    as (_ & _ & _ & L1 & C1).
  destruct (map_obj env ctx mapfile (set_clock_reads S w)) as [[m|e|] w1];
    simpl in L1, C1; [|exists []; by rewrite app_nil_r..].
  pose proof (configure_same_request_log env m q w1) as L2.
  pose proof (configure_clock_advances env m q w1) as C2.
  destruct (configure env m q w1) as [[[]|e|] w2];
    unfold same_request_log, clock_advances in L2, C2; simpl in L2, C2;
    [|exists []; rewrite app_nil_r; simpl; split; [congruence|constructor]..].
  unfold try_finally_data.
  pose proof (draw_same_request_log env self m q w2) as L3.
  pose proof (draw_clock_advances env self m q w2) as C3.
  pose proof (draw_not_blocked env self m q w2) as B3.
  destruct (draw env self m q w2) as [[data|e|] w3];
    unfold same_request_log, clock_advances in L3, C3; simpl in L3, C3, B3;
    [| |done].
  all: rewrite log_finally_spec; simpl; eexists [_]; rewrite L3, L2, L1;
    split; [done|]; constructor; [|done]; simpl;
    assert (time_time env (clock_reads w) ≤ time_time env (clock_reads w3))%Z
      by (apply Hmono; lia); lia.
Qed.

Lemma request_durations_nonnegative_witness :
  ∃ recs,
    request_log (_render_mapfile env_ok source_plain ctx0 "base.xml" query0
                   empty_world).2
    = request_log empty_world ++ recs
    ∧ Forall (λ rec, (0 ≤ lr_duration rec)%Z) recs.
Proof.
  apply (request_durations_nonnegative env_ok source_plain ctx0 "base.xml"
           query0 empty_world).
  intros i j Hij. simpl. lia.
Defined.
